(** * Firewalla control plane: identity enforcement and docker VPN clients

    A shallow embedding of [net2/Identity.js] and
    [extension/vpnclient/docker/DockerBaseVPNClient.js].

    Strings are Rocq strings (one character per code unit), JavaScript
    objects used as dictionaries are [gmap]s, sets are [gset]s, arrays live
    in a heap of array objects addressed by references, and every
    asynchronous method is a state transformer over an explicit [World]
    that also records each external command in the order it is issued. *)

From Stdlib Require Import ZArith QArith Qround Lia Ascii.
From stdpp Require Import gmap strings list sorting pretty.

Open Scope Z_scope.
Set Warnings "-clear-no-such-hyp".

(** ** JavaScript values and string helpers *)

(** The values a policy field can carry. Numbers are rationals (every
    finite double is one), [JNaN] is the not-a-number value. *)
Inductive JsVal : Type :=
| JUndefined
| JNull
| JBool (b : bool)
| JNum (q : Q)
| JNaN
| JStr (s : string).

(** [v === true], [v === false], [v === null] *)
Definition isTrue (v : JsVal) : bool :=
  match v with JBool true => true | _ => false end.
Definition isFalse (v : JsVal) : bool :=
  match v with JBool false => true | _ => false end.
Definition isNull (v : JsVal) : bool :=
  match v with JNull => true | _ => false end.

(** [x.endsWith(suf)] *)
Fixpoint endsWith (s suf : string) : bool :=
  String.eqb s suf ||
  match s with
  | EmptyString => false
  | String _ rest => endsWith rest suf
  end.

(** [x.split('/')[0]]: everything before the first slash. *)
Fixpoint splitSlashHead (s : string) : string :=
  match s with
  | EmptyString => EmptyString
  | String c rest =>
      if Ascii.eqb c "/"%char then EmptyString else String c (splitSlashHead rest)
  end.

Fixpoint hasSlash (s : string) : bool :=
  match s with
  | EmptyString => false
  | String c rest => Ascii.eqb c "/"%char || hasSlash rest
  end.

(** JavaScript truthiness of an optional string ([undefined] is [None]). *)
Definition truthy (s : option string) : bool :=
  match s with
  | Some EmptyString => false
  | Some _ => true
  | None => false
  end.

(** [Array.prototype.sort()] with the default comparator, on strings:
    ascending code-unit order. *)
Definition jsSort (l : list string) : list string := merge_sort String.le l.

(** ** Identity.js *)

Module Identity.

(** The host-suffix stripping of [updateIPs]:
    [(ip.endsWith('/32') || ip.endsWith('/128')) ? ip.split('/')[0] : ip] *)
Definition stripHostSuffix (ip : string) : string :=
  if endsWith ip "/32" || endsWith ip "/128" then splitSlashHead ip else ip.

Section Naming.
(** [this.getNamespace()], abstract in the base class. *)
Variable namespace : string.
(** [f.getUserConfigFolder()] *)
Variable userConfigFolder : string.

(** [static getEnforcementIPsetName(uid, af = 4)] *)
Definition getEnforcementIPsetName (uid : string) (af : Z) : string :=
  ("c_" +:+ namespace +:+ "_" +:+ String.substring 0 12 uid +:+ "_set")
    +:+ (if decide (af = 4) then "" else "6").

(** [static getEnforcementDnsmasqGroupId(uid)] *)
Definition getEnforcementDnsmasqGroupId (uid : string) : string :=
  namespace +:+ "_" +:+ uid.

(** [static getRedisSetName(uid)] *)
Definition getRedisSetName (uid : string) : string :=
  namespace +:+ ":addresses:" +:+ uid.

(** [static getDnsmasqConfigDirectory(uid)] *)
Definition getDnsmasqConfigDirectory (uid : string) : string :=
  userConfigFolder +:+ "/dnsmasq".

(** [static getDnsmasqConfigFilenamePrefix(uid)] *)
Definition getDnsmasqConfigFilenamePrefix (uid : string) : string :=
  namespace +:+ "_" +:+ uid.

(** [_getPolicyKey()] *)
Definition _getPolicyKey (uid : string) : string :=
  "policy:" +:+ namespace +:+ ":" +:+ uid.

(** The key of [envCreatedMap] and of [instances]. *)
Definition instanceKey (uid : string) : string :=
  namespace +:+ ":" +:+ uid.
End Naming.

(** *** Host resources, process memory and the command log *)

(** Modelled from the spec: the [Rule] class of Iptables.js, which is not
    among the sources. A routing rule is its table, chain, match clauses,
    jump target, comment and family (section 3); the builder calls
    [new Rule(table)], [.chn], [.mdl], [.jmp], [.comment], [.fam] set these
    fields, and a new rule is an IPv4 rule. *)
Record Rule : Type := mkRule {
  family : Z;
  table : string;
  chain : string;
  matches : list (string * string);
  jump : string;
  comment : string
}.

Global Instance Rule_eq_dec : EqDecision Rule.
Proof. solve_decision. Defined.

Definition newRule (tbl : string) : Rule :=
  {| family := 4; table := tbl; chain := ""; matches := []; jump := ""; comment := "" |}.
Definition chn (c : string) (r : Rule) : Rule :=
  {| family := family r; table := table r; chain := c; matches := matches r;
     jump := jump r; comment := comment r |}.
Definition jmp (j : string) (r : Rule) : Rule :=
  {| family := family r; table := table r; chain := chain r; matches := matches r;
     jump := j; comment := comment r |}.
Definition setComment (c : string) (r : Rule) : Rule :=
  {| family := family r; table := table r; chain := chain r; matches := matches r;
     jump := jump r; comment := c |}.
Definition mdl (m e : string) (r : Rule) : Rule :=
  {| family := family r; table := table r; chain := chain r;
     matches := matches r ++ [(m, e)]; jump := jump r; comment := comment r |}.
Definition fam (f : Z) (r : Rule) : Rule :=
  {| family := f; table := table r; chain := chain r; matches := matches r;
     jump := jump r; comment := comment r |}.

Inductive RuleOp : Type := OpA | OpD.

(** References to array objects. *)
Definition loc : Type := nat.

(** The external commands the methods issue. *)
Inductive Cmd : Type :=
| Iptables (op : RuleOp) (r : Rule)   (* exec(rule.toCmd('-A')), exec(rule.toCmd('-D')) *)
| IpsetCreate (name kind : string)    (* sudo ipset create -! <name> <kind> *)
| IpsetFlush (name : string)          (* sudo ipset flush <name> *)
| IpsetBatch (adds : list (string * string)) (* ipset.batchOp(["add <set> <ip>", ...]) *)
| WriteFile (path content : string)   (* fs.promises.writeFile(path, content) *)
| RestartDNS                          (* dnsmasq.scheduleRestartDNSService() *)
| Smembers (key : string)             (* rclient.smembersAsync(key) *)
| Srem (key : string) (members : list string)
| Sadd (key : string) (members : list string)
| VpnEnsureEnv (profileId : string).  (* VPNClient.ensureCreateEnforcementEnv(profileId) *)

Global Instance RuleOp_eq_dec : EqDecision RuleOp.
Proof. solve_decision. Defined.
Global Instance Cmd_eq_dec : EqDecision Cmd.
Proof. solve_decision. Defined.

Record World : Type := mkWorld {
  (* kernel and persistent resources *)
  ipsets : gmap string (gset string);   (* existing sets and their members *)
  rules : list Rule;                    (* the rules of the chains, in order *)
  files : gmap string string;
  redis : gmap string (gset string);
  (* module-level memory of the process *)
  envCreatedMap : gset string;
  heap : gmap loc (list string);        (* array objects *)
  (* fields of [this] *)
  _ips : option loc;
  _profileId : option string;
  (* every external command, in the order issued *)
  log : list Cmd
}.

Definition with_ipsets (x : gmap string (gset string)) (w : World) : World :=
  mkWorld x (rules w) (files w) (redis w) (envCreatedMap w) (heap w) (_ips w) (_profileId w) (log w).
Definition with_rules (x : list Rule) (w : World) : World :=
  mkWorld (ipsets w) x (files w) (redis w) (envCreatedMap w) (heap w) (_ips w) (_profileId w) (log w).
Definition with_files (x : gmap string string) (w : World) : World :=
  mkWorld (ipsets w) (rules w) x (redis w) (envCreatedMap w) (heap w) (_ips w) (_profileId w) (log w).
Definition with_redis (x : gmap string (gset string)) (w : World) : World :=
  mkWorld (ipsets w) (rules w) (files w) x (envCreatedMap w) (heap w) (_ips w) (_profileId w) (log w).
Definition with_envCreatedMap (x : gset string) (w : World) : World :=
  mkWorld (ipsets w) (rules w) (files w) (redis w) x (heap w) (_ips w) (_profileId w) (log w).
Definition with_heap (x : gmap loc (list string)) (w : World) : World :=
  mkWorld (ipsets w) (rules w) (files w) (redis w) (envCreatedMap w) x (_ips w) (_profileId w) (log w).
Definition with_ips (x : option loc) (w : World) : World :=
  mkWorld (ipsets w) (rules w) (files w) (redis w) (envCreatedMap w) (heap w) x (_profileId w) (log w).
Definition with_profileId (x : option string) (w : World) : World :=
  mkWorld (ipsets w) (rules w) (files w) (redis w) (envCreatedMap w) (heap w) (_ips w) x (log w).
Definition with_log (x : list Cmd) (w : World) : World :=
  mkWorld (ipsets w) (rules w) (files w) (redis w) (envCreatedMap w) (heap w) (_ips w) (_profileId w) x.

(** The members of a persisted registry key (an absent key is the empty set). *)
Definition smembers (key : string) (w : World) : gset string :=
  default ∅ (redis w !! key).

(** The content of an array object. *)
Definition arrayAt (l : loc) (w : World) : list string :=
  default [] (heap w !! l).

(** *** Rule table operations *)

(** Modelled from the spec: the command built by [Rule.toCmd('-A')] of
    Iptables.js, which is not among the sources. Rule insertion is
    idempotent (sections 5 and 6): appending a rule that is already in the
    chain leaves the chain as it is. *)
Definition appendRule (r : Rule) (l : list Rule) : list Rule :=
  if decide (r ∈ l) then l else l ++ [r].

(** Modelled from the spec: the command built by [Rule.toCmd('-D')] of
    Iptables.js, which is not among the sources. Deleting removes the rule
    when it is in the chain and does nothing otherwise (sections 5 and 7). *)
Fixpoint deleteRule (r : Rule) (l : list Rule) : list Rule :=
  match l with
  | [] => []
  | x :: rest => if decide (x = r) then rest else x :: deleteRule r rest
  end.

(** Modelled from the spec: [ipset.batchOp] of Ipset.js is not among the
    sources; an ordered list of add commands applied together (section 6).
    A member added to a set that does not exist is lost. *)
Definition ipsetAdd (m : gmap string (gset string)) (a : string * string)
  : gmap string (gset string) :=
  match m !! a.1 with
  | Some s => <[a.1 := s ∪ {[a.2]}]> m
  | None => m
  end.

(** *** Asynchronous methods *)

Inductive Outcome (A : Type) : Type :=
| Returned (a : A)
| Thrown.
Arguments Returned {A} a.
Arguments Thrown {A}.

Definition Async (A : Type) : Type := World → Outcome A * World.

Definition ret {A} (a : A) : Async A := λ w, (Returned a, w).
Definition bind {A B} (m : Async A) (k : A → Async B) : Async B :=
  λ w, match m w with
       | (Returned a, w') => k a w'
       | (Thrown, w') => (Thrown, w')
       end.
Definition gets {A} (f : World → A) : Async A := λ w, (Returned (f w), w).
Definition modify (f : World → World) : Async unit := λ w, (Returned tt, f w).
(** [try { m } catch (err) { log.error(...) }] *)
Definition tryCatch (m : Async unit) : Async unit :=
  λ w, (Returned tt, (m w).2).
Definition when (b : bool) (m : Async unit) : Async unit :=
  if b then m else ret tt.

(** The world a method leaves behind. *)
Definition after {A} (m : Async A) (w : World) : World := (m w).2.

(** A method that only appends to the command log. *)
Definition extendsLog {A} (m : Async A) : Prop :=
  ∀ w, ∃ l, log (m w).2 = log w ++ l.

(** A method that leaves every array object as it is. *)
Definition keepsHeap {A} (m : Async A) : Prop :=
  ∀ w, heap (m w).2 = heap w.

Notation "x <~ m ;; k" := (bind m (λ x, k))
  (at level 100, m at next level, right associativity).
Notation "m ;; k" := (bind m (λ _, k))
  (at level 100, right associativity).

Section Methods.
Variable namespace : string.            (* this.constructor.getNamespace() *)
Variable userConfigFolder : string.     (* f.getUserConfigFolder() *)
Variable uid : string.                  (* this.getUniqueId() *)
Variable getRouteIpsetName : string → string. (* VPNClient.getRouteIpsetName *)
Variable MASK_VC : string.              (* routing.MASK_VC *)
Variable isValid4 : string → bool.      (* new Address4(ip).isValid() *)
Variable isValid6 : string → bool.      (* new Address6(ip).isValid() *)
(** Which commands fail: [fails n c] tells whether command [c], issued
    as the [n]-th command of the history, fails. *)
Variable fails : nat → Cmd → bool.

Definition reliable : Prop := ∀ n c, fails n c = false.

(** Modelled from the spec: [VPNClient.ensureCreateEnforcementEnv] of
    VPNClient.js, which is not among the sources. The route set of the
    profile exists afterwards (section 4.3, step 3). *)
Definition vpnEnsureEnv (p : string) (m : gmap string (gset string))
  : gmap string (gset string) :=
  match m !! getRouteIpsetName p with
  | Some _ => m
  | None => <[getRouteIpsetName p := ∅]> m
  end.

(** What a command does to the host when it succeeds. *)
Definition perform (c : Cmd) (w : World) : World :=
  match c with
  | Iptables OpA r => with_rules (appendRule r (rules w)) w
  | Iptables OpD r => with_rules (deleteRule r (rules w)) w
  | IpsetCreate name _ =>
      match ipsets w !! name with
      | Some _ => w
      | None => with_ipsets (<[name := ∅]> (ipsets w)) w
      end
  | IpsetFlush name =>
      match ipsets w !! name with
      | Some _ => with_ipsets (<[name := ∅]> (ipsets w)) w
      | None => w
      end
  | IpsetBatch adds => with_ipsets (foldl ipsetAdd (ipsets w) adds) w
  | WriteFile path content => with_files (<[path := content]> (files w)) w
  | RestartDNS => w
  | Smembers _ => w
  | Srem key ms => with_redis (<[key := smembers key w ∖ list_to_set ms]> (redis w)) w
  | Sadd key ms => with_redis (<[key := smembers key w ∪ list_to_set ms]> (redis w)) w
  | VpnEnsureEnv p => with_ipsets (vpnEnsureEnv p (ipsets w)) w
  end.

(** Issue a command: it is logged, and takes effect unless it fails. *)
Definition issue (c : Cmd) (w : World) : bool * World :=
  let w' := with_log (log w ++ [c]) w in
  if fails (length (log w)) c then (false, w') else (true, perform c w').

(** [await exec(cmd).catch((err) => { log.error(...) })] *)
Definition execCatch (c : Cmd) : Async unit :=
  λ w, (Returned tt, (issue c w).2).

(** [await op(...)] without a handler: a failure rejects the caller. *)
Definition execThrow (c : Cmd) : Async unit :=
  λ w, let r := issue c w in (if r.1 then Returned tt else Thrown, r.2).

Definition name4 : string := getEnforcementIPsetName namespace uid 4.
Definition name6 : string := getEnforcementIPsetName namespace uid 6.

(** [static async ensureCreateEnforcementEnv(uid)] *)
Definition ensureCreateEnforcementEnv (u : string) : Async unit :=
  let content := "redis-src-address-group=%" +:+ getRedisSetName namespace u
                   +:+ "@" +:+ getEnforcementDnsmasqGroupId namespace u in
  execCatch (WriteFile (getDnsmasqConfigDirectory userConfigFolder u +:+ "/"
                          +:+ getDnsmasqConfigFilenamePrefix namespace u +:+ ".conf")
                       content) ;;
  modify (λ w, with_log (log w ++ [RestartDNS]) w) ;;
  created <~ gets (λ w, bool_decide (instanceKey namespace u ∈ envCreatedMap w)) ;;
  if created then ret tt
  else
    execCatch (IpsetCreate (getEnforcementIPsetName namespace u 4) "hash:net") ;;
    execCatch (IpsetCreate (getEnforcementIPsetName namespace u 6)
                           "hash:net family inet6") ;;
    modify (λ w, with_envCreatedMap ({[instanceKey namespace u]} ∪ envCreatedMap w) w).

(** [async createEnv()] *)
Definition createEnv : Async unit := ensureCreateEnforcementEnv uid.

(** [arr.sort()]: the array object itself is reordered. *)
Definition sortInPlace (l : loc) : Async unit :=
  modify (λ w, with_heap (<[l := jsSort (arrayAt l w)]> (heap w)) w).

(** The body of the [for (const ip of ips)] loop of [updateIPs]. *)
Definition addCmds (ips : list string) : list (string * string) :=
  foldl (λ cmds ip,
           if isValid4 ip then cmds ++ [(name4, ip)]
           else if isValid6 ip then cmds ++ [(name6, ip)]
           else cmds) [] ips.

(** The test [this._ips && _.isEqual(ips.sort(), this._ips.sort())]: both
    arrays are sorted where they are, then compared element by element. *)
Definition ipsUnchanged (ips : loc) : Async bool :=
  prev <~ gets _ips ;;
  match prev with
  | None => ret false
  | Some p =>
      sortInPlace ips ;;
      sortInPlace p ;;
      gets (λ w, bool_decide (arrayAt ips w = arrayAt p w))
  end.

(** [updateIPs] from the first flush to [this._ips = ips]. *)
Definition applyIPs (ips : loc) : Async unit :=
  execCatch (IpsetFlush name4) ;;
  execCatch (IpsetFlush name6) ;;
  arr <~ gets (arrayAt ips) ;;
  execCatch (IpsetBatch (addCmds arr)) ;;
  (* update IP addresses in redis set *)
  execThrow (Smembers (getRedisSetName namespace uid)) ;;
  currentIPs <~ gets (λ w, elements (smembers (getRedisSetName namespace uid) w)) ;;
  let removedIPs := filter (λ ip, ip ∉ arr) currentIPs in
  let newIPs := stripHostSuffix <$> filter (λ ip, ip ∉ currentIPs) arr in
  when (bool_decide (0 < length removedIPs)%nat)
       (execThrow (Srem (getRedisSetName namespace uid) removedIPs)) ;;
  when (bool_decide (0 < length newIPs)%nat)
       (execThrow (Sadd (getRedisSetName namespace uid) newIPs)) ;;
  modify (with_ips (Some ips)).

(** [async updateIPs(ips)]; [ips] is the caller's array object. *)
Definition updateIPs (ips : loc) : Async unit :=
  same <~ ipsUnchanged ips ;;
  if same then ret tt else applyIPs ips.

(** The call takes the early return of [updateIPs]. *)
Definition takesEarlyReturn (ips : loc) (w : World) : Prop :=
  (ipsUnchanged ips w).1 = Returned true.

(** The persisted registry and the two family sets hold the list [l]. *)
Definition converged (l : list string) (w : World) : Prop :=
  smembers (getRedisSetName namespace uid) w = list_to_set (stripHostSuffix <$> l)
  ∧ ipsets w !! name4 = Some (list_to_set (filter (λ ip, isValid4 ip = true) l))
  ∧ ipsets w !! name6
    = Some (list_to_set (filter (λ ip, isValid4 ip = false ∧ isValid6 ip = true) l)).

(** The states [updateIPs] works in: the two family sets exist, the
    registry holds stripped addresses only, and the registry and the sets
    hold the last applied list, if there is one. *)
Definition consistent (w : World) : Prop :=
  is_Some (ipsets w !! name4)
  ∧ is_Some (ipsets w !! name6)
  ∧ (∀ x, x ∈ smembers (getRedisSetName namespace uid) w → stripHostSuffix x = x)
  ∧ (∀ p, _ips w = Some p → converged (arrayAt p w) w).

(** The commands on the persisted registry. *)
Definition redisCommand (c : Cmd) : bool :=
  match c with
  | Smembers _ | Srem _ _ | Sadd _ _ => true
  | _ => false
  end.

(** [getIPs()]: the stored array object, or a new empty array. *)
Definition getIPs : Async loc :=
  cur <~ gets _ips ;;
  match cur with
  | Some l => ret l
  | None =>
      l <~ gets (λ w, fresh (dom (heap w))) ;;
      modify (λ w, with_heap (<[l := []]> (heap w)) w) ;;
      ret l
  end.

(** The two jump targets of [vpnClient]. *)
Definition activeJump (profileId : string) : string :=
  "SET --map-set " +:+ getRouteIpsetName profileId +:+ " dst,dst --map-mark".
Definition neutralJump : string :=
  "MARK --set-xmark 0x0000/" +:+ MASK_VC.

(** [new Rule("mangle").chn("FW_RT_TAG_DEVICE_5").jmp(...).comment(this._getPolicyKey())] *)
Definition vpnRule (profileId : string) : Rule :=
  setComment (_getPolicyKey namespace uid)
    (jmp (activeJump profileId) (chn "FW_RT_TAG_DEVICE_5" (newRule "mangle"))).
(** [rule.clone().mdl("set", `--match-set ${name} src`)] and its [.fam(6)] twin. *)
Definition vpnRule4 (profileId : string) : Rule :=
  mdl "set" ("--match-set " +:+ name4 +:+ " src") (vpnRule profileId).
Definition vpnRule6 (profileId : string) : Rule :=
  fam 6 (mdl "set" ("--match-set " +:+ name6 +:+ " src") (vpnRule profileId)).

(** The policy object of [vpnClient]. *)
Record VpnPolicy : Type := mkVpnPolicy {
  state : JsVal;
  profileId : option string
}.

(** The rule a jump override turns [vpnRule4] and [vpnRule6] into:
    [rule4.jmp(`MARK --set-xmark 0x0000/${routing.MASK_VC}`)]. *)
Definition neutralRule4 (profileId : string) : Rule := jmp neutralJump (vpnRule4 profileId).
Definition neutralRule6 (profileId : string) : Rule := jmp neutralJump (vpnRule6 profileId).

(** The body of [if (this._profileId && profileId !== this._profileId)]:
    both rule variants of the previous profile are deleted. *)
Definition removeOldRules (prev : string) : Async unit :=
  let rule4 := vpnRule4 prev in
  let rule6 := vpnRule6 prev in
  execCatch (Iptables OpD rule4) ;;
  execCatch (Iptables OpD rule6) ;;
  (* remove rule that was set by state == null *)
  let rule4 := jmp neutralJump rule4 in
  let rule6 := jmp neutralJump rule6 in
  execCatch (Iptables OpD rule4) ;;
  execCatch (Iptables OpD rule6).

(** From [this._profileId = profileId] to the end of the [try] block. *)
Definition applyPolicy (policy : VpnPolicy) : Async unit :=
  let state := state policy in
  let profileId := profileId policy in
  modify (with_profileId profileId) ;;
  if negb (truthy profileId) then ret tt
  else
    let pid := default "" profileId in
    execThrow (VpnEnsureEnv pid) ;;
    ensureCreateEnforcementEnv uid ;;
    when (isTrue state) (
      let rule4 := vpnRule4 pid in
      let rule6 := vpnRule6 pid in
      execCatch (Iptables OpA rule4) ;;
      execCatch (Iptables OpA rule6) ;;
      (* remove rule that was set by state == null *)
      let rule4 := jmp neutralJump rule4 in
      let rule6 := jmp neutralJump rule6 in
      execCatch (Iptables OpD rule4) ;;
      execCatch (Iptables OpD rule6)) ;;
    (* null means off *)
    when (isNull state) (
      (* remove rule that was set by state == true *)
      let rule4 := vpnRule4 pid in
      let rule6 := vpnRule6 pid in
      execCatch (Iptables OpD rule4) ;;
      execCatch (Iptables OpD rule6) ;;
      (* override target and clear vpn client bits in fwmark *)
      let rule4 := jmp neutralJump rule4 in
      let rule6 := jmp neutralJump rule6 in
      execCatch (Iptables OpA rule4) ;;
      execCatch (Iptables OpA rule6)) ;;
    (* false means N/A *)
    when (isFalse state) (
      let rule4 := vpnRule4 pid in
      let rule6 := vpnRule6 pid in
      execCatch (Iptables OpD rule4) ;;
      execCatch (Iptables OpD rule6) ;;
      (* remove rule that was set by state == null *)
      let rule4 := jmp neutralJump rule4 in
      let rule6 := jmp neutralJump rule6 in
      execCatch (Iptables OpD rule4) ;;
      execCatch (Iptables OpD rule6)).

(** [async vpnClient(policy)] *)
Definition vpnClient (policy : VpnPolicy) : Async unit :=
  tryCatch (
    prev <~ gets _profileId ;;
    when (truthy prev && negb (bool_decide (profileId policy = prev)))
         (removeOldRules (default "" prev)) ;;
    applyPolicy policy).

(** A sequence of [vpnClient] calls, one after the other. *)
Definition vpnClientCalls (ps : list VpnPolicy) (w : World) : World :=
  foldl (λ w p, after (vpnClient p) w) w ps.

(** The calls of the rule state machine: a profile id is given and the
    state is one of [true], [false], [null]. *)
Definition validCall (p : VpnPolicy) : Prop :=
  truthy (profileId p) = true
  ∧ (isTrue (state p) || isNull (state p) || isFalse (state p)) = true.

End Methods.

(** *** The ACL timer

    The timers of the event loop are kept in the order in which they fire.
    The clock [now] is [Date.now()], in milliseconds. *)

Record Timer : Type := mkTimer {
  handle : nat;
  due : Q;             (* the instant, in epoch milliseconds, at which it fires *)
  nextState : JsVal    (* the state captured by the callback *)
}.

Record TimerWorld : Type := mkTimerWorld {
  now : Z;
  pending : list Timer;
  nextHandle : nat;
  _aclTimer : option nat;            (* this._aclTimer *)
  policy : gmap string JsVal;        (* this.policy *)
  published : list (string * JsVal)  (* the changes saved and published by setPolicy *)
}.

Section AclTimer.
(** [Number(s)] of a string, [None] for [NaN]. *)
Variable stringToNumber : string → option Q.

(** [Number(v)], [None] for [NaN]. *)
Definition toNumber (v : JsVal) : option Q :=
  match v with
  | JUndefined => None
  | JNull => Some 0%Q
  | JBool b => Some (if b then 1%Q else 0%Q)
  | JNum q => Some q
  | JNaN => None
  | JStr s => stringToNumber s
  end.

(** [a < b] on numbers. *)
Definition Qltb (a b : Q) : bool := negb (Qle_bool b a).

(** [clearTimeout(h)] *)
Definition clearTimeout (h : nat) (w : TimerWorld) : TimerWorld :=
  mkTimerWorld (now w) (filter (λ t, handle t ≠ h) (pending w)) (nextHandle w)
               (_aclTimer w) (policy w) (published w).

(** A new timer goes before the first pending timer that is due later. *)
Fixpoint enqueue (t : Timer) (l : list Timer) : list Timer :=
  match l with
  | [] => [t]
  | x :: rest => if Qltb (due t) (due x) then t :: x :: rest else x :: enqueue t rest
  end.

(** [setTimeout(() => this.setPolicy("acl", nextState), delay)]; the new
    handle is the result. *)
Definition setTimeout (st : JsVal) (delay : Q) (w : TimerWorld) : nat * TimerWorld :=
  let t := mkTimer (nextHandle w) (inject_Z (now w) + delay)%Q st in
  (nextHandle w,
   mkTimerWorld (now w) (enqueue t (pending w)) (S (nextHandle w))
                (_aclTimer w) (policy w) (published w)).

(** [async setPolicy(name, data)] *)
Definition setPolicy (name : string) (data : JsVal) (w : TimerWorld) : TimerWorld :=
  mkTimerWorld (now w) (pending w) (nextHandle w) (_aclTimer w)
               (<[name := data]> (policy w)) (published w ++ [(name, data)]).

(** The timers left once the previous timer of the identity is cleared. *)
Definition cleared (w : TimerWorld) : list Timer :=
  match _aclTimer w with
  | Some h => filter (λ t, handle t ≠ h) (pending w)
  | None => pending w
  end.

(** [async aclTimer(policy = {})]; the policy object is the map of its
    own properties. [!isNaN(policy.time)] holds when [Number(policy.time)]
    is a number, which is then compared with [Date.now() / 1000]. *)
Definition aclTimer (p : gmap string JsVal) (w : TimerWorld) : TimerWorld :=
  let w1 := match _aclTimer w with
            | Some h => clearTimeout h w
            | None => w
            end in
  let time := default JUndefined (p !! "time") in
  match p !! "state", toNumber time with
  | Some st, Some t =>
      if Qltb (inject_Z (now w1) / 1000) t then
        let r := setTimeout st (t * 1000 - inject_Z (now w1))%Q w1 in
        mkTimerWorld (now r.2) (pending r.2) (nextHandle r.2) (Some r.1)
                     (policy r.2) (published r.2)
      else w1
  | _, _ => w1
  end.

(** The clock reaches [T]: every pending timer due by then fires, in
    order, and runs its callback. *)
Fixpoint fireDue (T : Z) (l : list Timer) (w : TimerWorld) : TimerWorld :=
  match l with
  | [] => w
  | t :: rest =>
      if Qle_bool (due t) (inject_Z T)
      then fireDue T rest
             (setPolicy "acl" (nextState t)
                (mkTimerWorld (now w) (filter (λ x, handle x ≠ handle t) (pending w))
                              (nextHandle w) (_aclTimer w) (policy w) (published w)))
      else w
  end.

Definition advanceTo (T : Z) (w : TimerWorld) : TimerWorld :=
  let w' := fireDue T (pending w) w in
  mkTimerWorld (Z.max T (now w)) (pending w') (nextHandle w') (_aclTimer w')
               (policy w') (published w').
End AclTimer.

(** *** Sample parameters and states *)

Fixpoint hasChar (c : ascii) (s : string) : bool :=
  match s with
  | EmptyString => false
  | String x rest => Ascii.eqb x c || hasChar c rest
  end.

(** Every command succeeds. *)
Definition noFailure : nat → Cmd → bool := λ _ _, false.
(** The registry is unreachable, everything else succeeds. *)
Definition registryDown : nat → Cmd → bool := λ _ c, redisCommand c.

Definition sampleRouteIpsetName (profileId : string) : string :=
  "c_rt_" +:+ profileId +:+ "_set".
Definition sampleIsValid4 (ip : string) : bool := hasChar "."%char ip.
Definition sampleIsValid6 (ip : string) : bool := hasChar ":"%char ip.

(** An identity without timer, at one million milliseconds past the epoch. *)
Definition sampleTimerWorld : TimerWorld :=
  {| now := 1000000; pending := []; nextHandle := 0; _aclTimer := None;
     policy := ∅; published := [] |}.
Definition sampleStringToNumber (s : string) : option Q := None.

(** A tunnel peer whose two family sets exist, with an empty registry and
    two address arrays in memory. *)
Definition sampleWorld : World :=
  {| ipsets := {[ "c_wg_peer1_set" := ∅; "c_wg_peer1_set6" := ∅ ]};
     rules := [];
     files := ∅;
     redis := ∅;
     envCreatedMap := {[ "wg:peer1" ]};
     heap := {[ 0%nat := ["10.1.1.2/32"; "fd00::2/128"];
                1%nat := ["10.1.1.3"; "10.1.1.2/32"] ]};
     _ips := None;
     _profileId := None;
     log := [] |}.

End Identity.

(** ** DockerBaseVPNClient.js *)

Module DockerBaseVPNClient.

(** An IPv4 network: base address as a 32-bit integer and prefix length. *)
Record Cidr : Type := mkCidr {
  base : Z;
  plen : nat
}.

Definition hostBits (c : Cidr) : nat := 32 - plen c.

(** Address [x] lies in network [c]. *)
Definition contains (c : Cidr) (x : Z) : Prop :=
  x `div` 2 ^ Z.of_nat (hostBits c) = base c `div` 2 ^ Z.of_nat (hostBits c).

(** Two networks intersect when they share an address. *)
Definition intersects (c d : Cidr) : Prop := ∃ x, contains c x ∧ contains d x.

Definition overlaps (c d : Cidr) : bool :=
  let h := Z.of_nat (Nat.max (hostBits c) (hostBits d)) in
  bool_decide (base c `div` 2 ^ h = base d `div` 2 ^ h).

(** [Address4.fromBigInteger(n).correctForm()] *)
Definition correctForm (a : Z) : string :=
  pretty ((a `div` 16777216) `mod` 256) +:+ "." +:+ pretty ((a `div` 65536) `mod` 256)
    +:+ "." +:+ pretty ((a `div` 256) `mod` 256) +:+ "." +:+ pretty (a `mod` 256).

(** Modelled from the spec: [sysManager.inMySubnets4] of SysManager.js is
    not among the sources. A candidate /24 is refused when it intersects a
    locally-attached subnet of the gateway (section 4.5); the candidate is
    passed by its base address. *)
Definition inMySubnets4 (mySubnets : list Cidr) (a : Z) : bool :=
  existsb (overlaps (mkCidr a 24)) mySubnets.

(** [ipRangeRandomMap], in key order: 10.0.0.0/8, 172.16.0.0/12,
    192.168.0.0/16, each with its number of random bits. *)
Definition ipRangeRandomMap : list (Cidr * Z) :=
  [ (mkCidr 167772160 8, 16); (mkCidr 2886729728 12, 12); (mkCidr 3232235520 16, 8) ].

Section Allocator.
Variable mySubnets : list Cidr.
(** The successive results of [Math.random()]. *)
Variable random : nat → Q.

(** The candidate computed by one turn of the loop, with [index] already
    reduced modulo 3 and [k] the number of numbers drawn so far. *)
Definition candidate (index : nat) (k : nat) : Z :=
  let entry := default (mkCidr 0 0, 0) (ipRangeRandomMap !! index) in
  let randomOffsets := Qfloor (random k * inject_Z (2 ^ entry.2)) * 256 in
  base entry.1 + randomOffsets.

(** The [while (true)] loop of [_generateRamdomNetwork]; [fuel] bounds
    the number of turns, [None] means the bound was reached. *)
Fixpoint generateLoop (fuel : nat) (index : nat) (k : nat) : option string :=
  match fuel with
  | O => None
  | S fuel' =>
      let index := (index mod 3)%nat in
      let subnet := candidate index k in
      if negb (inMySubnets4 mySubnets subnet)
      then Some (correctForm subnet +:+ "/24")
      else generateLoop fuel' (S index) (S k)
  end.

(** [_generateRamdomNetwork()] *)
Definition _generateRamdomNetwork (fuel : nat) : option string :=
  generateLoop fuel 0 0.
End Allocator.

(** *** The link-up poller of [_start] *)

Inductive Event : Type :=
| ReadCarrier (t : nat)                         (* read /sys/class/net/<intf>/carrier *)
| AddRouteToTable (dest intf tbl : string)      (* routing.addRouteToTable(dest, null, intf, tbl, null, 4) *)
| Delay (ms : Z).                               (* scheduler.delay(ms) *)

Global Instance Event_eq_dec : EqDecision Event.
Proof. solve_decision. Defined.

Section Poller.
Variable interfaceName : string.            (* this.getInterfaceName() *)
Variable address4 : string → Z.             (* new Address4(s).bigInteger() *)
(** The trimmed content of the carrier file at the check number [t],
    [None] when it cannot be read. *)
Variable carrier : nat → option string.
(** The trimmed content of the subnet file, [None] when it cannot be read. *)
Variable subnetFile : option string.

(** [async _getRemoteIP()] *)
Definition _getRemoteIP : option string :=
  match subnetFile with
  | Some subnet =>
      if bool_decide (subnet = "") then None
      else Some (correctForm (address4 subnet + 2))
  | None => None
  end.

(** The loop [while (t < 30)] of [_start]; [remaining] is [30 - t]. *)
Fixpoint pollLoop (remaining : nat) (t : nat) : list Event :=
  match remaining with
  | O => []
  | S remaining' =>
      ReadCarrier t ::
      if bool_decide (carrier t = Some "1") then
        match _getRemoteIP with
        | Some remoteIP => [AddRouteToTable remoteIP interfaceName "wan_routable"]
        | None => []
        end
      else Delay 1000 :: pollLoop remaining' (S t)
  end.

Definition linkUpPoller : list Event := pollLoop 30 0.
End Poller.

Definition isReadCarrier (e : Event) : bool :=
  match e with ReadCarrier _ => true | _ => false end.
Definition isAddRoute (e : Event) : bool :=
  match e with AddRouteToTable _ _ _ => true | _ => false end.
Definition isDelay (e : Event) : bool :=
  match e with Delay _ => true | _ => false end.

(** The number of events of a kind in a trace. *)
Definition count (f : Event → bool) (l : list Event) : nat :=
  length (filter (λ e, f e = true) l).

(** *** Sample inputs *)

(** A gateway attached to 10.0.0.0/24 and 192.168.1.0/24. *)
Definition sampleSubnets : list Cidr :=
  [mkCidr 167772160 24; mkCidr 3232235776 24].
(** [Math.random()] returns 0, then 1/2 for ever. *)
Definition sampleRandom (k : nat) : Q :=
  match k with O => 0%Q | _ => (1 # 2)%Q end.
Definition sampleAddress4 (s : string) : Z := 2886991872.

End DockerBaseVPNClient.

(** ** Identity.js: teardown, toggles and the instance registry *)

Module IdentityEnv.
Import Identity.

(** The shell commands of [destroyEnv], [qos], [acl] and [_dnsmasq] that
    are not among [Cmd]; their effect is applied to the world, they are
    not entered in its log. *)
Inductive ShellCmd : Type :=
| IpsetAddMember (set member : string)  (* sudo ipset add -! <set> <member> *)
| IpsetDelMember (set member : string)  (* sudo ipset del -! <set> <member> *)
| RmFile (path : string)                (* sudo rm -f <path> *)
| RmGlob (before after : string).       (* sudo rm -f <before>*<after> *)

(** [s] without the prefix [pre], when it starts with it. *)
Fixpoint dropPrefix (pre s : string) : option string :=
  match pre, s with
  | EmptyString, _ => Some s
  | String a pre', String b s' => if Ascii.eqb a b then dropPrefix pre' s' else None
  | String _ _, EmptyString => None
  end.

(** The shell pattern [<before>*<after>]: the star stands for any
    characters but a slash. *)
Definition matchesGlob (before after path : string) : bool :=
  match dropPrefix before path with
  | Some rest =>
      endsWith rest after
      && negb (hasSlash (String.substring 0 (String.length rest - String.length after) rest))
  | None => false
  end.

(** What a shell command does when it succeeds. The off sets hold set
    names: a name is added when the off set and the named set both exist,
    [-!] makes adding a member twice and deleting an absent one no error,
    and [rm -f] does not mind a missing file. *)
Definition shellEffect (c : ShellCmd) (w : World) : World :=
  match c with
  | IpsetAddMember set member =>
      match ipsets w !! set, ipsets w !! member with
      | Some s, Some _ => with_ipsets (<[set := s ∪ {[member]}]> (ipsets w)) w
      | _, _ => w
      end
  | IpsetDelMember set member =>
      match ipsets w !! set with
      | Some s => with_ipsets (<[set := s ∖ {[member]}]> (ipsets w)) w
      | None => w
      end
  | RmFile path => with_files (delete path (files w)) w
  | RmGlob before after =>
      with_files (filter (λ kv, matchesGlob before after kv.1 = false) (files w)) w
  end.

Section Teardown.
Variable namespace : string.            (* this.constructor.getNamespace() *)
Variable userConfigFolder : string.     (* f.getUserConfigFolder() *)
Variable uid : string.                  (* this.getUniqueId() *)
Variable getRouteIpsetName : string → string.
Variable fails : nat → Cmd → bool.
(** Which of the shell commands fail. *)
Variable shellFails : ShellCmd → bool.
Variable IPSET_QOS_OFF : string.        (* ipset.CONSTANTS.IPSET_QOS_OFF *)
Variable IPSET_ACL_OFF : string.        (* ipset.CONSTANTS.IPSET_ACL_OFF *)
Variable IPSET_NO_DNS_BOOST : string.   (* ipset.CONSTANTS.IPSET_NO_DNS_BOOST *)

(** [await exec(cmd).catch((err) => { ... })] for a shell command. *)
Definition shell (c : ShellCmd) : Async unit :=
  λ w, (Returned tt, if shellFails c then w else shellEffect c w).

(** [async destroyEnv()] *)
Definition destroyEnv : Async unit :=
  execCatch getRouteIpsetName fails (IpsetFlush (name4 namespace uid)) ;;
  execCatch getRouteIpsetName fails (IpsetFlush (name6 namespace uid)) ;;
  (* delete related dnsmasq config files *)
  shell (RmFile (getDnsmasqConfigDirectory userConfigFolder uid +:+ "/"
                   +:+ getDnsmasqConfigFilenamePrefix namespace uid +:+ ".conf")) ;;
  shell (RmGlob (getDnsmasqConfigDirectory userConfigFolder uid +:+ "/"
                   +:+ getDnsmasqConfigFilenamePrefix namespace uid +:+ "_")
                ".conf") ;;
  modify (λ w, with_log (log w ++ [RestartDNS]) w).

(** The common shape of [qos], [acl] and [_dnsmasq]: [=== true] takes the
    two sets of the identity out of the off set, anything else puts them in. *)
Definition toggle (offSet : string) (state : JsVal) : Async unit :=
  if isTrue state then
    shell (IpsetDelMember offSet (name4 namespace uid)) ;;
    shell (IpsetDelMember offSet (name6 namespace uid))
  else
    shell (IpsetAddMember offSet (name4 namespace uid)) ;;
    shell (IpsetAddMember offSet (name6 namespace uid)).

(** [async qos(state)] *)
Definition qos (state : JsVal) : Async unit := toggle IPSET_QOS_OFF state.
(** [async acl(state)] *)
Definition acl (state : JsVal) : Async unit := toggle IPSET_ACL_OFF state.
(** [async _dnsmasq(policy)]; the policy object is the map of its properties. *)
Definition _dnsmasq (policy : gmap string JsVal) : Async unit :=
  let dnsCaching := default JUndefined (policy !! "dnsCaching") in
  toggle IPSET_NO_DNS_BOOST dnsCaching.
End Teardown.

(** *** The instance registry of the constructor *)

Record Registry : Type := mkRegistry {
  instances : gmap string nat;   (* the module-level [instances], by object *)
  subscribed : list string;      (* the uids [subscribeOnce] was called for *)
  nextObject : nat               (* the next object to be allocated *)
}.

(** [new Identity(o)]: [super(o)] builds a new object, the constructor
    returns the object registered under the key. [uid] is
    [this.getUniqueId()], [None] for [undefined]. *)
Definition construct (isMain : bool) (namespace : string) (uid : option string)
    (r : Registry) : nat * Registry :=
  let this := nextObject r in
  let key := instanceKey namespace (default "undefined" uid) in
  match instances r !! key with
  | Some obj => (obj, mkRegistry (instances r) (subscribed r) (S this))
  | None =>
      (this,
       mkRegistry (<[key := this]> (instances r))
                  (if isMain && truthy uid
                   then subscribed r ++ [default "" uid] else subscribed r)
                  (S this))
  end.

(** One construction after the other; the objects returned, in order. *)
Fixpoint constructAll (cs : list (bool * string * option string)) (r : Registry)
  : list nat * Registry :=
  match cs with
  | [] => ([], r)
  | (isMain, namespace, uid) :: rest =>
      let r1 := construct isMain namespace uid r in
      let r2 := constructAll rest r1.2 in
      (r1.1 :: r2.1, r2.2)
  end.

End IdentityEnv.

(** ** DockerBaseVPNClient.js: profiles and addresses *)

Module DockerProfiles.
Import DockerBaseVPNClient.

Section Paths.
Variable hiddenFolder : string.   (* f.getHiddenFolder() *)
Variable protocol : string.       (* this.constructor.getProtocol() *)

(** The directory [listProfileIds] reads. *)
Definition profilesDirectory : string :=
  hiddenFolder +:+ "/run/docker_vpn_client/" +:+ protocol.

(** [_getSettingsPath()] *)
Definition _getSettingsPath (profileId : string) : string :=
  hiddenFolder +:+ "/run/docker_vpn_client/" +:+ protocol +:+ "/" +:+ profileId
    +:+ ".settings".

(** [_getSubnetFilePath()] *)
Definition _getSubnetFilePath (profileId : string) : string :=
  hiddenFolder +:+ "/run/docker_vpn_client/" +:+ protocol +:+ "/" +:+ profileId
    +:+ ".subnet".

(** [_getWorkingDirectory()] *)
Definition _getWorkingDirectory (profileId : string) : string :=
  hiddenFolder +:+ "/run/docker/" +:+ profileId.

(** [_getConfigDirectory()] *)
Definition _getConfigDirectory (profileId : string) : string :=
  hiddenFolder +:+ "/run/docker_vpn_client/" +:+ protocol +:+ "/" +:+ profileId.
End Paths.

(** [filename.slice(0, filename.length - ".settings".length)] *)
Definition dropSettings (filename : string) : string :=
  String.substring 0 (String.length filename - String.length ".settings") filename.

(** [static async listProfileIds()], on the names [readdirAsync] returns. *)
Definition listProfileIds (files : list string) : list string :=
  dropSettings <$> filter (λ filename, endsWith filename ".settings" = true) files.

Section Addresses.
Variable address4 : string → Z.          (* new Address4(s).bigInteger() *)
(** The trimmed content of the subnet file, [None] when it cannot be read. *)
Variable subnetFile : option string.

(** [async getVpnIP4s()] *)
Definition getVpnIP4s : option string :=
  match subnetFile with
  | Some subnet =>
      if bool_decide (subnet = "") then None
      else Some (correctForm (address4 subnet + 1))
  | None => None
  end.
End Addresses.

End DockerProfiles.


(** * Properties *)

Lemma jsSort_perm l : jsSort l ≡ₚ l.
Proof. apply merge_sort_Permutation. Qed.

Lemma endsWith_slash_hasSlash s t :
  endsWith s (String "/"%char t) = true → hasSlash s = true.
Proof.
  induction s as [|c s IH]; simpl.
  - discriminate.
  - intros H. apply orb_true_iff in H as [H|H].
    + destruct (Ascii.eqb_spec c "/"%char) as [->|Hc]; [done|].
      simpl in H. destruct (Ascii.eqb_spec c "/"%char); [done|discriminate].
    + rewrite (IH H). apply orb_true_r.
Qed.

Lemma splitSlashHead_noSlash s : hasSlash (splitSlashHead s) = false.
Proof.
  induction s as [|c s IH]; simpl; [done|].
  destruct (Ascii.eqb c "/"%char) eqn:E; simpl; [done|]. by rewrite E.
Qed.

Import Identity.

Lemma stripHostSuffix_idem ip :
  stripHostSuffix (stripHostSuffix ip) = stripHostSuffix ip.
Proof.
  destruct (endsWith ip "/32" || endsWith ip "/128") eqn:E.
  - assert (stripHostSuffix ip = splitSlashHead ip) as ->
      by (unfold stripHostSuffix; by rewrite E).
    unfold stripHostSuffix.
    destruct (endsWith (splitSlashHead ip) "/32"
              || endsWith (splitSlashHead ip) "/128") eqn:E2; [|done].
    exfalso. pose proof (splitSlashHead_noSlash ip) as Hn.
    apply orb_true_iff in E2 as [H|H];
      apply endsWith_slash_hasSlash in H; congruence.
  - assert (stripHostSuffix ip = ip) as Hs
      by (unfold stripHostSuffix; by rewrite E).
    by rewrite !Hs.
Qed.


(** ** Enforcement set names *)

Lemma append_empty_r (s : string) : s +:+ "" = s.
Proof. induction s as [|c s IH]; [done|]. unfold String.app in *. simpl. by rewrite IH. Qed.

Lemma substring_prefix_idem (n : nat) (s : string) :
  String.substring 0 n (String.substring 0 n s) = String.substring 0 n s.
Proof.
  revert s. induction n as [|n IH]; intros [|c s]; simpl; try done.
  by rewrite IH.
Qed.

(** C9. The enforcement set names are a function of the namespace and of
    the first 12 characters of the unique id only: the name of an id is the
    name of its 12-character prefix, the IPv6 name is the IPv4 name followed
    by "6", and two ids with the same first 12 characters get the same pair
    of names. *)
Theorem getEnforcementIPsetName_prefix_only (namespace uid uid' : string) (af : Z) :
  getEnforcementIPsetName namespace uid af
    = getEnforcementIPsetName namespace (String.substring 0 12 uid) af
  ∧ getEnforcementIPsetName namespace uid 6
    = getEnforcementIPsetName namespace uid 4 +:+ "6"
  ∧ (String.substring 0 12 uid = String.substring 0 12 uid' →
     getEnforcementIPsetName namespace uid 4 = getEnforcementIPsetName namespace uid' 4
     ∧ getEnforcementIPsetName namespace uid 6 = getEnforcementIPsetName namespace uid' 6).
Proof.
  unfold getEnforcementIPsetName. split; [|split].
  - by rewrite substring_prefix_idem.
  - simpl. by rewrite append_empty_r.
  - intros ->. done.
Qed.

Lemma getEnforcementIPsetName_prefix_only_witness :
  "AAAAAAAAAAAA1" ≠ "AAAAAAAAAAAA2"
  ∧ getEnforcementIPsetName "wg" "AAAAAAAAAAAA1" 4 = getEnforcementIPsetName "wg" "AAAAAAAAAAAA2" 4
  ∧ getEnforcementIPsetName "wg" "AAAAAAAAAAAA1" 6 = getEnforcementIPsetName "wg" "AAAAAAAAAAAA2" 6.
Proof.
  split; [discriminate|].
  apply (getEnforcementIPsetName_prefix_only "wg" "AAAAAAAAAAAA1" "AAAAAAAAAAAA2" 4).
  reflexivity.
Defined.

(** ** Commands under reliable execution *)

Section IdentityFacts.
Variable namespace userConfigFolder uid : string.
Variable getRouteIpsetName : string → string.
Variable MASK_VC : string.
Variable fails : nat → Cmd → bool.

Local Abbreviation issue := (issue getRouteIpsetName fails).
Local Abbreviation perform := (perform getRouteIpsetName).
Local Abbreviation execCatch := (execCatch getRouteIpsetName fails).
Local Abbreviation execThrow := (execThrow getRouteIpsetName fails).
Local Abbreviation ensureEnv :=
  (ensureCreateEnforcementEnv namespace userConfigFolder getRouteIpsetName fails).
Local Abbreviation confPath u :=
  (getDnsmasqConfigDirectory userConfigFolder u +:+ "/"
     +:+ getDnsmasqConfigFilenamePrefix namespace u +:+ ".conf").
Local Abbreviation confContent u :=
  ("redis-src-address-group=%" +:+ getRedisSetName namespace u
     +:+ "@" +:+ getEnforcementDnsmasqGroupId namespace u).

Lemma issue_reliable c w :
  reliable fails → issue c w = (true, perform c (with_log (log w ++ [c]) w)).
Proof. intros H. unfold Identity.issue. by rewrite H. Qed.

Lemma issue_log c w : log (issue c w).2 = log w ++ [c].
Proof.
  unfold Identity.issue. destruct (fails _ _); simpl; [done|].
  destruct c as [[] ?| | | | | | | | |]; simpl; try done;
    by repeat case_match.
Qed.

(** *** Environment creation *)

Lemma ensureEnv_log_created u w :
  instanceKey namespace u ∈ envCreatedMap w →
  log (after (ensureEnv u) w)
    = log w ++ [WriteFile (confPath u) (confContent u); RestartDNS]
  ∧ ipsets (after (ensureEnv u) w) = ipsets w
  ∧ envCreatedMap (after (ensureEnv u) w) = envCreatedMap w
  ∧ rules (after (ensureEnv u) w) = rules w.
Proof.
  intros Hin. unfold after, ensureCreateEnforcementEnv, bind, Identity.execCatch,
    modify, gets, ret, Identity.issue. simpl.
  destruct (fails _ _); simpl; rewrite bool_decide_eq_true_2 by done; simpl;
    by rewrite <- app_assoc.
Qed.

Lemma ensureEnv_marks u w :
  instanceKey namespace u ∈ envCreatedMap (after (ensureEnv u) w).
Proof.
  unfold after, ensureCreateEnforcementEnv, bind, Identity.execCatch,
    modify, gets, ret. simpl.
  case_bool_decide as Hin; simpl.
  - revert Hin. unfold Identity.issue. by destruct (fails _ _).
  - set_solver.
Qed.

Lemma ensureEnv_files u w :
  reliable fails →
  files (after (ensureEnv u) w) = <[confPath u := confContent u]> (files w).
Proof.
  intros Hrel. unfold after, ensureCreateEnforcementEnv, bind, Identity.execCatch,
    modify, gets, ret. rewrite !issue_reliable by done. simpl.
  case_bool_decide; simpl; [done|].
  rewrite !issue_reliable by done. simpl.
  by repeat (case_match; simpl).
Qed.

(** C6. A second call of [ensureCreateEnforcementEnv] for the same uid
    issues only the file write and the restart request, no set creation,
    and leaves the sets, the created marking and, when commands do not
    fail, the files as the first call left them. *)
Theorem ensureCreateEnforcementEnv_idempotent (u : string) (w : World) :
  let w1 := after (ensureEnv u) w in
  let w2 := after (ensureEnv u) w1 in
  log w2 = log w1 ++ [WriteFile (confPath u) (confContent u); RestartDNS]
  ∧ (∀ name kind, IpsetCreate name kind ∉ drop (length (log w1)) (log w2))
  ∧ ipsets w2 = ipsets w1
  ∧ envCreatedMap w2 = envCreatedMap w1
  ∧ (reliable fails → files w2 = files w1).
Proof.
  intros w1 w2.
  pose proof (ensureEnv_marks u w) as Hm. fold w1 in Hm.
  destruct (ensureEnv_log_created u w1 Hm) as (Hlog & Hsets & Hmap & _).
  fold w2 in Hlog, Hsets, Hmap.
  split; [done|]. split; [|split; [done|split; [done|]]].
  - intros name kind. rewrite Hlog, drop_app_length.
    intros Hin. repeat (apply elem_of_cons in Hin as [Hin|Hin]; [discriminate|]).
    by apply elem_of_nil in Hin.
  - intros Hrel. unfold w2. rewrite ensureEnv_files by done.
    unfold w1. rewrite ensureEnv_files by done.
    apply insert_insert_eq.
Qed.

(** *** The rule table *)

Lemma elem_of_appendRule (x r : Rule) (l : list Rule) :
  x ∈ appendRule r l ↔ x = r ∨ x ∈ l.
Proof.
  unfold appendRule. case_decide as Hin.
  - split; [by right|]. intros [->|?]; done.
  - rewrite elem_of_app, list_elem_of_singleton. tauto.
Qed.

Lemma NoDup_appendRule (r : Rule) (l : list Rule) :
  NoDup l → NoDup (appendRule r l).
Proof.
  intros Hnd. unfold appendRule. case_decide as Hin; [done|].
  apply NoDup_app. split; [done|]. split.
  - intros x Hx ->%list_elem_of_singleton. done.
  - apply NoDup_singleton.
Qed.

Lemma elem_of_deleteRule (x r : Rule) (l : list Rule) :
  NoDup l → x ∈ deleteRule r l ↔ x ≠ r ∧ x ∈ l.
Proof.
  induction l as [|y l IH]; simpl; intros Hnd.
  - split; [by intros ?%elem_of_nil|]. by intros [_ ?%elem_of_nil].
  - apply NoDup_cons in Hnd as [Hy Hnd]. case_decide as Hyr.
    + subst y. rewrite elem_of_cons. split.
      * intros Hx. split; [|by right]. by intros ->.
      * intros [Hne [?|?]]; done.
    + rewrite !elem_of_cons, (IH Hnd). split.
      * intros [->|[? ?]]; [by split; [|left]|by split; [|right]].
      * intros [Hne [->|?]]; [by left|by right].
Qed.

Lemma deleteRule_subseteq (r : Rule) (l : list Rule) : deleteRule r l ⊆ l.
Proof.
  induction l as [|y l IH]; simpl; [done|].
  case_decide; intros x Hx; [by right|].
  apply elem_of_cons in Hx as [->|Hx]; [by left|]. right. by apply IH.
Qed.

Lemma NoDup_deleteRule (r : Rule) (l : list Rule) :
  NoDup l → NoDup (deleteRule r l).
Proof.
  induction l as [|y l IH]; simpl; [done|].
  intros [Hy Hnd]%NoDup_cons. case_decide; [done|].
  apply NoDup_cons. split; [|by apply IH].
  intros Hin. apply Hy. by apply (deleteRule_subseteq r l).
Qed.

Lemma ensureEnv_returns u w : (ensureEnv u w).1 = Returned tt.
Proof.
  unfold ensureCreateEnforcementEnv, bind, Identity.execCatch, modify, gets, ret.
  simpl. by case_bool_decide.
Qed.

Lemma issue_frame c w :
  _profileId (issue c w).2 = _profileId w
  ∧ _ips (issue c w).2 = _ips w
  ∧ heap (issue c w).2 = heap w
  ∧ envCreatedMap (issue c w).2 = envCreatedMap w.
Proof.
  unfold Identity.issue. destruct (fails _ _); simpl; [done|].
  destruct c as [[] ?| | | | | | | | |]; simpl; try done; by repeat case_match.
Qed.

Lemma ensureEnv_frame u w :
  rules (after (ensureEnv u) w) = rules w
  ∧ _profileId (after (ensureEnv u) w) = _profileId w.
Proof.
  unfold after, ensureCreateEnforcementEnv, bind, Identity.execCatch, modify, gets, ret.
  simpl. unfold Identity.issue.
  repeat (case_bool_decide || destruct (fails _ _) || case_match || simpl); done.
Qed.

(** *** The VPN client rule state machine *)

Local Abbreviation vpnClient :=
  (vpnClient namespace userConfigFolder uid getRouteIpsetName MASK_VC fails).
Local Abbreviation applyPolicy :=
  (applyPolicy namespace userConfigFolder uid getRouteIpsetName MASK_VC fails).
Local Abbreviation removeOldRules :=
  (removeOldRules namespace uid getRouteIpsetName MASK_VC fails).
Local Abbreviation vpnClientCalls :=
  (vpnClientCalls namespace userConfigFolder uid getRouteIpsetName MASK_VC fails).
Local Abbreviation A4 := (vpnRule4 namespace uid getRouteIpsetName).
Local Abbreviation A6 := (vpnRule6 namespace uid getRouteIpsetName).
Local Abbreviation N4 := (neutralRule4 namespace uid getRouteIpsetName MASK_VC).
Local Abbreviation N6 := (neutralRule6 namespace uid getRouteIpsetName MASK_VC).
Local Abbreviation policyKey := (_getPolicyKey namespace uid).

Lemma removeOldRules_spec q w :
  reliable fails →
  removeOldRules q w
  = (Returned tt,
     with_log (log w ++ [Iptables OpD (A4 q); Iptables OpD (A6 q);
                         Iptables OpD (N4 q); Iptables OpD (N6 q)])
       (with_rules (deleteRule (N6 q) (deleteRule (N4 q)
                      (deleteRule (A6 q) (deleteRule (A4 q) (rules w))))) w)).
Proof.
  intros Hrel. unfold Identity.removeOldRules, bind, Identity.execCatch.
  rewrite !issue_reliable by done. simpl.
  by rewrite <- !app_assoc.
Qed.

Lemma applyPolicy_spec p w :
  reliable fails →
  truthy (profileId p) = true →
  let pid := default "" (profileId p) in
  let w' := after (applyPolicy p) w in
  _profileId w' = profileId p
  ∧ (isTrue (state p) = true →
     rules w' = deleteRule (N6 pid) (deleteRule (N4 pid)
                  (appendRule (A6 pid) (appendRule (A4 pid) (rules w)))))
  ∧ (isNull (state p) = true →
     rules w' = appendRule (N6 pid) (appendRule (N4 pid)
                  (deleteRule (A6 pid) (deleteRule (A4 pid) (rules w)))))
  ∧ (isFalse (state p) = true →
     rules w' = deleteRule (N6 pid) (deleteRule (N4 pid)
                  (deleteRule (A6 pid) (deleteRule (A4 pid) (rules w))))).
Proof.
  intros Hrel Htr pid w'. subst w'.
  unfold after, Identity.applyPolicy, bind, modify, Identity.execThrow.
  rewrite Htr. simpl. rewrite issue_reliable by done. simpl.
  match goal with |- context [ensureEnv uid ?x] => set (w1 := x) end.
  assert (rules w1 = rules w ∧ _profileId w1 = profileId p) as [Hr1 Hp1].
  { by unfold w1. }
  pose proof (ensureEnv_returns uid w1) as Hret.
  pose proof (ensureEnv_frame uid w1) as [Hr2 Hp2]. unfold after in Hr2, Hp2.
  destruct (ensureEnv uid w1) as [o w2]. simpl in Hret, Hr2, Hp2. subst o.
  rewrite ?Hr1 in Hr2. rewrite ?Hp1 in Hp2.
  destruct (state p) as [| |[]| | |]; simpl;
    unfold Identity.execCatch, bind, ret; rewrite ?issue_reliable by done; simpl;
    rewrite ?Hr2; (split; [done|]); repeat split; intros; done.
Qed.

Lemma vpnClient_after p w :
  reliable fails →
  after (vpnClient p) w
  = after (applyPolicy p)
      (if truthy (_profileId w) && negb (bool_decide (profileId p = _profileId w))
       then after (removeOldRules (default "" (_profileId w))) w
       else w).
Proof.
  intros Hrel. unfold Identity.vpnClient, tryCatch, after at 1.
  unfold bind at 1, gets. cbn beta iota. unfold bind at 1, when, after at 1.
  destruct (truthy (_profileId w) && negb (bool_decide (profileId p = _profileId w))).
  - unfold after. by rewrite removeOldRules_spec.
  - done.
Qed.

(** The neutralized rule does not depend on the profile. *)
Lemma neutralRule_profile q q' : N4 q = N4 q' ∧ N6 q = N6 q'.
Proof. done. Qed.

Lemma activeJump_neq_neutral q :
  activeJump getRouteIpsetName q ≠ neutralJump MASK_VC.
Proof. unfold activeJump, neutralJump. simpl. discriminate. Qed.

Lemma vpnRules_distinct q q' :
  A4 q ≠ A6 q' ∧ A4 q ≠ N4 q' ∧ A4 q ≠ N6 q' ∧ A6 q ≠ N4 q' ∧ A6 q ≠ N6 q'
  ∧ N4 q ≠ N6 q'.
Proof.
  pose proof (activeJump_neq_neutral q) as Hj.
  repeat split; intros H; injection H; intros; done.
Qed.

Lemma vpnRules_comment q :
  comment (A4 q) = policyKey ∧ comment (A6 q) = policyKey
  ∧ comment (N4 q) = policyKey ∧ comment (N6 q) = policyKey.
Proof. done. Qed.

Ltac nodup_rules :=
  repeat (apply NoDup_deleteRule || apply NoDup_appendRule); assumption.

Ltac rule_membership :=
  repeat first
    [ rewrite elem_of_appendRule
    | rewrite elem_of_deleteRule by nodup_rules ].

(** The rule table once the migration guard of a call has run. *)
Lemma guard_rules p w :
  reliable fails →
  NoDup (rules w) →
  let w1 := if truthy (_profileId w) && negb (bool_decide (profileId p = _profileId w))
            then after (removeOldRules (default "" (_profileId w))) w
            else w in
  NoDup (rules w1) ∧ rules w1 ⊆ rules w.
Proof.
  intros Hrel Hnd. simpl.
  destruct (truthy (_profileId w) && negb (bool_decide (profileId p = _profileId w)));
    [|done].
  unfold after. rewrite removeOldRules_spec by done. simpl.
  split; [nodup_rules|].
  intros r. rule_membership. tauto.
Qed.

Lemma vpnClient_step p w :
  reliable fails →
  NoDup (rules w) →
  validCall p →
  let w' := after (vpnClient p) w in
  let pid := default "" (profileId p) in
  NoDup (rules w')
  ∧ _profileId w' = profileId p
  ∧ (isTrue (state p) = true →
     A4 pid ∈ rules w' ∧ A6 pid ∈ rules w' ∧ (N4 pid ∉ rules w') ∧ (N6 pid ∉ rules w'))
  ∧ (isNull (state p) = true →
     N4 pid ∈ rules w' ∧ N6 pid ∈ rules w' ∧ (A4 pid ∉ rules w') ∧ (A6 pid ∉ rules w'))
  ∧ (isFalse (state p) = true →
     (A4 pid ∉ rules w') ∧ (A6 pid ∉ rules w') ∧ (N4 pid ∉ rules w') ∧ (N6 pid ∉ rules w')).
Proof.
  intros Hrel Hnd [Htr Hst] w' pid. subst w'.
  rewrite vpnClient_after by done.
  destruct (guard_rules p w Hrel Hnd) as [Hnd1 _].
  match goal with |- context [after (applyPolicy p) ?x] => set (w1 := x) in * end.
  destruct (applyPolicy_spec p w1 Hrel Htr) as (Hp & HT & HN & HF).
  fold pid in HT, HN, HF.
  destruct (vpnRules_distinct pid pid) as (d1 & d2 & d3 & d4 & d5 & d6).
  split; [|split; [exact Hp|]].
  - destruct (state p) as [| |[]| | |]; simpl in Hst; try discriminate;
      [rewrite HN by done|rewrite HT by done|rewrite HF by done]; nodup_rules.
  - split; [|split]; intros Hs;
      [rewrite (HT Hs)|rewrite (HN Hs)|rewrite (HF Hs)];
      rule_membership; naive_solver.
Qed.

Lemma extendsLog_bind {A B} (m : Async A) (k : A → Async B) :
  extendsLog m → (∀ a, extendsLog (k a)) → extendsLog (bind m k).
Proof.
  intros Hm Hk w. unfold bind. destruct (Hm w) as [l1 H1].
  destruct (m w) as [[a|] w1]; simpl in *.
  - destruct (Hk a w1) as [l2 H2]. exists (l1 ++ l2).
    by rewrite H2, H1, app_assoc.
  - by exists l1.
Qed.

Lemma extendsLog_ret {A} (a : A) : extendsLog (ret a).
Proof. intros w. exists []. simpl. by rewrite app_nil_r. Qed.

Lemma extendsLog_gets {A} (f : World → A) : extendsLog (gets f).
Proof. intros w. exists []. simpl. by rewrite app_nil_r. Qed.

Lemma extendsLog_modify (f : World → World) :
  (∀ w, ∃ l, log (f w) = log w ++ l) → extendsLog (modify f).
Proof. intros Hf w. apply Hf. Qed.

Lemma extendsLog_when b (m : Async unit) : extendsLog m → extendsLog (when b m).
Proof. destruct b; [done|]. intros _. apply extendsLog_ret. Qed.

Lemma extendsLog_tryCatch (m : Async unit) : extendsLog m → extendsLog (tryCatch m).
Proof. intros Hm w. apply Hm. Qed.

Lemma extendsLog_execCatch c : extendsLog (execCatch c).
Proof. intros w. exists [c]. apply issue_log. Qed.

Lemma extendsLog_execThrow c : extendsLog (execThrow c).
Proof. intros w. exists [c]. apply issue_log. Qed.

Ltac extends_log :=
  repeat first
    [ progress cbv zeta
    | lazymatch goal with
      | |- extendsLog (if ?b then _ else _) => destruct b
      | |- extendsLog (bind _ _) => apply extendsLog_bind; [idtac|intros ?]
      | |- extendsLog (Identity.execCatch _ _ _) => apply extendsLog_execCatch
      | |- extendsLog (Identity.execThrow _ _ _) => apply extendsLog_execThrow
      | |- extendsLog (ret _) => apply extendsLog_ret
      | |- extendsLog (gets _) => apply extendsLog_gets
      | |- extendsLog (when _ _) => apply extendsLog_when
      | |- extendsLog (tryCatch _) => apply extendsLog_tryCatch
      | |- extendsLog (modify _) =>
          apply extendsLog_modify; intros ?; simpl;
          first [ by eexists | by (exists []; rewrite app_nil_r) ]
      end ].

Lemma extendsLog_ensureEnv u : extendsLog (ensureEnv u).
Proof.
  unfold ensureCreateEnforcementEnv. extends_log.
Qed.

Lemma extendsLog_applyPolicy p : extendsLog (applyPolicy p).
Proof.
  unfold Identity.applyPolicy. extends_log; apply extendsLog_ensureEnv.
Qed.

Lemma truthy_Some o : truthy o = true ↔ ∃ q, o = Some q ∧ q ≠ "".
Proof.
  destruct o as [[|c s]|]; simpl; split; try done.
  - by intros (q & [= <-] & ?).
  - intros _. by eexists.
  - by intros (q & ? & ?).
Qed.

(** The rules carrying this identity's policy key all belong to the
    profile the identity is bound to. *)
Local Abbreviation tracked w :=
  (∀ r, r ∈ rules w → comment r = policyKey →
        ∃ q, _profileId w = Some q ∧ q ≠ ""
             ∧ (r = A4 q ∨ r = A6 q ∨ r = N4 q ∨ r = N6 q)).

Lemma vpnClient_step_own p w :
  reliable fails →
  NoDup (rules w) →
  validCall p →
  tracked w →
  let w' := after (vpnClient p) w in
  let pid := default "" (profileId p) in
  ∀ r, r ∈ rules w' → comment r = policyKey →
       (isTrue (state p) = true ∧ (r = A4 pid ∨ r = A6 pid))
       ∨ (isNull (state p) = true ∧ (r = N4 pid ∨ r = N6 pid)).
Proof.
  intros Hrel Hnd [Htr Hst] Htrk w' pid r. subst w'.
  rewrite vpnClient_after by done.
  destruct (guard_rules p w Hrel Hnd) as [Hnd1 _].
  assert (∀ x, x ∈ rules (if truthy (_profileId w)
                                && negb (bool_decide (profileId p = _profileId w))
                             then after (removeOldRules (default "" (_profileId w))) w
                             else w) →
               comment x = policyKey →
               x = A4 pid ∨ x = A6 pid ∨ x = N4 pid ∨ x = N6 pid) as Hown.
  { intros x. destruct (truthy (_profileId w)) eqn:Hprev; simpl.
    - case_bool_decide as Heq; simpl.
      + intros Hx Hc. destruct (Htrk x Hx Hc) as (q & Hq & _ & Hcases).
        subst pid. rewrite Heq, Hq. done.
      + unfold after. rewrite removeOldRules_spec by done. simpl.
        rule_membership. intros (n6 & n4 & a6 & a4 & Hx) Hc.
        destruct (Htrk x Hx Hc) as (q & Hq & _ & Hcases).
        rewrite Hq in *. simpl in *. naive_solver.
    - intros Hx Hc. destruct (Htrk x Hx Hc) as (q & Hq & Hne & _).
      rewrite Hq in Hprev. destruct q; [done|discriminate]. }
  match goal with |- context [after (applyPolicy p) ?x] => set (w1 := x) in * end.
  destruct (applyPolicy_spec p w1 Hrel Htr) as (Hp & HT & HN & HF).
  fold pid in HT, HN, HF.
  destruct (state p) as [| |[]| | |]; simpl in Hst; try discriminate; simpl.
  - rewrite HN by done. rule_membership. intros Hr Hc. right. split; [done|].
    destruct Hr as [?|[?|(? & ? & Hr)]]; [by right|by left|].
    destruct (Hown r Hr Hc) as [?|[?|[?|?]]]; done || by (left + right).
  - rewrite HT by done. rule_membership. intros (? & ? & Hr) Hc. left. split; [done|].
    destruct Hr as [?|[?|Hr]]; [by right|by left|].
    destruct (Hown r Hr Hc) as [?|[?|[?|?]]]; done || by (left + right).
  - rewrite HF by done. rule_membership. intros (? & ? & ? & ? & Hr) Hc.
    destruct (Hown r Hr Hc) as [?|[?|[?|?]]]; done.
Qed.

Lemma vpnClientCalls_snoc ps p w :
  vpnClientCalls (ps ++ [p]) w = after (vpnClient p) (vpnClientCalls ps w).
Proof. unfold Identity.vpnClientCalls. by rewrite foldl_app. Qed.

Lemma vpnClientCalls_invariant ps w :
  reliable fails →
  NoDup (rules w) →
  Forall validCall ps →
  NoDup (rules (vpnClientCalls ps w))
  ∧ ((∀ r, r ∈ rules w → comment r ≠ policyKey) → tracked (vpnClientCalls ps w)).
Proof.
  intros Hrel Hnd. induction ps as [|p ps IH] using rev_ind; intros Hall.
  - split; [done|]. intros Hfree r Hr Hc. by destruct (Hfree r Hr).
  - apply Forall_app in Hall as [Hps Hp]. rewrite Forall_singleton in Hp.
    destruct (IH Hps) as [Hnd' Htrk]. rewrite vpnClientCalls_snoc.
    destruct (vpnClient_step p _ Hrel Hnd' Hp) as (Hnd2 & Hpid & _).
    split; [done|]. intros Hfree r Hr Hc.
    destruct Hp as [Htr Hst]. apply truthy_Some in Htr as (q & Hq & Hne).
    exists q. rewrite Hpid. split; [done|]. split; [done|].
    pose proof (vpnClient_step_own p _ Hrel Hnd' (conj (proj2 (truthy_Some _)
                  (ex_intro _ q (conj Hq Hne))) Hst) (Htrk Hfree) r Hr Hc) as Hcase.
    rewrite Hq in Hcase. simpl in Hcase. naive_solver.
Qed.

(** C1. After each call of a sequence of [vpnClient] calls that give a
    profile id and a state among [true], [null], [false]: state [true]
    leaves the active rule of the profile present and the neutralized
    rule absent, state [null] leaves the neutralized rule present and the
    active rule absent, state [false] leaves both absent, for IPv4 and for
    IPv6 alike. When the table held no rule of this identity before the
    first call, those are all the rules of this identity in the table.
    Commands are taken not to fail and the table to hold no rule twice. *)
Theorem vpnClient_rule_exclusivity (ps : list VpnPolicy) (p : VpnPolicy) (w0 : World) :
  reliable fails →
  NoDup (rules w0) →
  Forall validCall (ps ++ [p]) →
  let w := vpnClientCalls (ps ++ [p]) w0 in
  let pid := default "" (profileId p) in
  (isTrue (state p) = true →
   A4 pid ∈ rules w ∧ A6 pid ∈ rules w ∧ (N4 pid ∉ rules w) ∧ (N6 pid ∉ rules w))
  ∧ (isNull (state p) = true →
     N4 pid ∈ rules w ∧ N6 pid ∈ rules w ∧ (A4 pid ∉ rules w) ∧ (A6 pid ∉ rules w))
  ∧ (isFalse (state p) = true →
     (A4 pid ∉ rules w) ∧ (A6 pid ∉ rules w) ∧ (N4 pid ∉ rules w) ∧ (N6 pid ∉ rules w))
  ∧ ((∀ r, r ∈ rules w0 → comment r ≠ policyKey) →
     ∀ r, r ∈ rules w → comment r = policyKey →
          (isTrue (state p) = true ∧ (r = A4 pid ∨ r = A6 pid))
          ∨ (isNull (state p) = true ∧ (r = N4 pid ∨ r = N6 pid))).
Proof.
  intros Hrel Hnd Hall w pid. subst w.
  apply Forall_app in Hall as [Hps Hp]. rewrite Forall_singleton in Hp.
  destruct (vpnClientCalls_invariant ps w0 Hrel Hnd Hps) as [Hnd' Htrk].
  rewrite vpnClientCalls_snoc.
  destruct (vpnClient_step p _ Hrel Hnd' Hp) as (_ & _ & HT & HN & HF).
  split; [done|]. split; [done|]. split; [done|].
  intros Hfree. by apply vpnClient_step_own; [..|apply Htrk].
Qed.

(** C2. When the identity is bound to a profile and [vpnClient] is called
    with another profile id, the first four commands of the call delete
    the active and the neutralized rule of the previous profile for IPv4
    and IPv6; once they have run none of these rules is in the table, the
    rest of the call starts from that table, and every rule insertion of
    the call comes after them. *)
Theorem vpnClient_profile_switch (p : VpnPolicy) (q : string) (w : World) :
  reliable fails →
  NoDup (rules w) →
  _profileId w = Some q →
  q ≠ "" →
  profileId p ≠ Some q →
  let wm := after (removeOldRules q) w in
  let w' := after (vpnClient p) w in
  log wm = log w ++ [Iptables OpD (A4 q); Iptables OpD (A6 q);
                     Iptables OpD (N4 q); Iptables OpD (N6 q)]
  ∧ (A4 q ∉ rules wm) ∧ (A6 q ∉ rules wm) ∧ (N4 q ∉ rules wm) ∧ (N6 q ∉ rules wm)
  ∧ w' = after (applyPolicy p) wm
  ∧ (∃ rest, log w' = log wm ++ rest)
  ∧ (∀ i r, (length (log w) ≤ i)%nat →
            log w' !! i = Some (Iptables OpA r) →
            (length (log w) + 4 ≤ i)%nat).
Proof.
  intros Hrel Hnd Hprev Hq Hne wm w'.
  assert (w' = after (applyPolicy p) wm) as Hw'.
  { subst w' wm. rewrite vpnClient_after by done. rewrite Hprev.
    assert (truthy (Some q) = true) as -> by (by destruct q).
    by rewrite bool_decide_eq_false_2. }
  assert (log wm = log w ++ [Iptables OpD (A4 q); Iptables OpD (A6 q);
                             Iptables OpD (N4 q); Iptables OpD (N6 q)]) as Hlog.
  { subst wm. unfold after. by rewrite removeOldRules_spec. }
  assert (rules wm = deleteRule (N6 q) (deleteRule (N4 q)
                       (deleteRule (A6 q) (deleteRule (A4 q) (rules w))))) as Hrules.
  { subst wm. unfold after. by rewrite removeOldRules_spec. }
  destruct (extendsLog_applyPolicy p wm) as [rest Hrest].
  fold (after (applyPolicy p) wm) in Hrest. rewrite <- Hw' in Hrest.
  split; [done|].
  repeat (split; [rewrite Hrules; rule_membership; tauto|]).
  split; [done|]. split; [by exists rest|].
  intros i r Hi Hlook. rewrite Hrest, Hlog in Hlook.
  destruct (decide (length (log w) + 4 ≤ i)%nat) as [|Hlt]; [done|].
  exfalso. rewrite lookup_app_l in Hlook by (rewrite length_app; simpl; lia).
  rewrite lookup_app_r in Hlook by done.
  destruct (i - length (log w))%nat as [|[|[|[|n]]]] eqn:Hn; simpl in Hlook;
    discriminate.
Qed.

(** *** Address updates *)

Variable isValid4 isValid6 : string → bool.

Local Abbreviation updateIPs :=
  (updateIPs namespace uid getRouteIpsetName isValid4 isValid6 fails).
Local Abbreviation applyIPs :=
  (applyIPs namespace uid getRouteIpsetName isValid4 isValid6 fails).
Local Abbreviation addCmds := (addCmds namespace uid isValid4 isValid6).
Local Abbreviation converged := (converged namespace uid isValid4 isValid6).
Local Abbreviation consistent := (consistent namespace uid isValid4 isValid6).
Local Abbreviation set4 := (name4 namespace uid).
Local Abbreviation set6 := (name6 namespace uid).
Local Abbreviation registryKey := (getRedisSetName namespace uid).

Lemma name4_neq_name6 : set4 ≠ set6.
Proof.
  unfold name4, name6, getEnforcementIPsetName. simpl.
  intros H. apply String.app_inj in H. discriminate.
Qed.

Lemma addCmds_cons ip l :
  addCmds (ip :: l)
  = (if isValid4 ip then [(set4, ip)]
     else if isValid6 ip then [(set6, ip)] else []) ++ addCmds l.
Proof.
  unfold Identity.addCmds.
  set (f := λ (cmds : list (string * string)) (ip0 : string),
              if isValid4 ip0 then cmds ++ [(set4, ip0)]
              else if isValid6 ip0 then cmds ++ [(set6, ip0)] else cmds).
  assert (∀ acc pre, foldl f (pre ++ acc) l = pre ++ foldl f acc l) as Hgen.
  { induction l as [|x l IH]; intros acc pre; simpl; [done|].
    unfold f at 2 4. destruct (isValid4 x); [by rewrite <- app_assoc, IH|].
    destruct (isValid6 x); [by rewrite <- app_assoc, IH|]. apply IH. }
  assert (∀ pre, foldl f pre l = pre ++ foldl f [] l) as Hpre.
  { intros pre. by rewrite <- Hgen, app_nil_r. }
  simpl. unfold f at 2.
  destruct (isValid4 ip); [|destruct (isValid6 ip)]; simpl; [apply Hpre..|done].
Qed.

Lemma foldl_ipsetAdd_addCmds l m s4 s6 :
  m !! set4 = Some s4 →
  m !! set6 = Some s6 →
  foldl ipsetAdd m (addCmds l) !! set4
    = Some (s4 ∪ list_to_set (filter (λ ip, isValid4 ip = true) l))
  ∧ foldl ipsetAdd m (addCmds l) !! set6
    = Some (s6 ∪ list_to_set
                   (filter (λ ip, isValid4 ip = false ∧ isValid6 ip = true) l)).
Proof.
  pose proof name4_neq_name6 as Hne.
  revert m s4 s6. induction l as [|ip l IH]; intros m s4 s6 H4 H6.
  - simpl. rewrite H4, H6. split; f_equal; set_solver.
  - rewrite addCmds_cons, foldl_app.
    destruct (isValid4 ip) eqn:E4; [|destruct (isValid6 ip) eqn:E6]; simpl.
    + unfold ipsetAdd at 2 4. simpl. rewrite H4.
      destruct (IH (<[set4 := s4 ∪ {[ip]}]> m) (s4 ∪ {[ip]}) s6) as [-> ->].
      * apply lookup_insert_eq.
      * by rewrite lookup_insert_ne.
      * rewrite filter_cons_True by done.
        rewrite filter_cons_False by (intros [? _]; congruence).
        split; f_equal; set_solver.
    + unfold ipsetAdd at 2 4. simpl. rewrite H6.
      destruct (IH (<[set6 := s6 ∪ {[ip]}]> m) s4 (s6 ∪ {[ip]})) as [-> ->].
      * by rewrite lookup_insert_ne.
      * apply lookup_insert_eq.
      * rewrite filter_cons_False by congruence.
        rewrite filter_cons_True by done.
        split; f_equal; set_solver.
    + destruct (IH m s4 s6 H4 H6) as [-> ->].
      rewrite filter_cons_False by congruence.
      rewrite filter_cons_False by (intros [_ ?]; congruence).
      done.
Qed.

(** The registry after the removals and additions of [updateIPs]. *)
Lemma registry_reconciled (cur : gset string) (l : list string) :
  (∀ x, x ∈ cur → stripHostSuffix x = x) →
  (cur ∖ list_to_set (filter (λ ip, ip ∉ l) (elements cur)))
    ∪ list_to_set (stripHostSuffix <$> filter (λ ip, ip ∉ elements cur) l)
  = list_to_set (stripHostSuffix <$> l).
Proof.
  intros Hnorm. apply set_eq. intros x.
  rewrite elem_of_union, elem_of_difference, !elem_of_list_to_set,
    !list_elem_of_fmap, list_elem_of_filter, elem_of_elements.
  split.
  - intros [[Hx Hkeep]|(b & -> & Hb)].
    + destruct (decide (x ∈ l)) as [Hin|Hout]; [|by destruct Hkeep].
      exists x. by rewrite Hnorm.
    + apply list_elem_of_filter in Hb as [_ Hb]. by exists b.
  - intros (b & -> & Hb). destruct (decide (b ∈ cur)) as [Hin|Hout].
    + left. rewrite (Hnorm b Hin). split; [done|]. intros [Hnot _]. done.
    + right. exists b. split; [done|]. apply list_elem_of_filter.
      split; [|done]. by rewrite elem_of_elements.
Qed.

Lemma issue_ok c w : reliable fails → (issue c w).1 = true.
Proof. intros H. unfold Identity.issue. by rewrite H. Qed.

(** [applyIPs], command by command, when no command fails. *)
Lemma applyIPs_reliable ips w :
  reliable fails →
  let w1 := (issue (IpsetFlush set4) w).2 in
  let w2 := (issue (IpsetFlush set6) w1).2 in
  let arr := arrayAt ips w2 in
  let w3 := (issue (IpsetBatch (addCmds arr)) w2).2 in
  let w4 := (issue (Smembers registryKey) w3).2 in
  let currentIPs := elements (smembers registryKey w4) in
  let removedIPs := filter (λ ip, ip ∉ arr) currentIPs in
  let newIPs := stripHostSuffix <$> filter (λ ip, ip ∉ currentIPs) arr in
  let w5 := if bool_decide (0 < length removedIPs)%nat
            then (issue (Srem registryKey removedIPs) w4).2 else w4 in
  let w6 := if bool_decide (0 < length newIPs)%nat
            then (issue (Sadd registryKey newIPs) w5).2 else w5 in
  applyIPs ips w = (Returned tt, with_ips (Some ips) w6).
Proof.
  intros Hrel. cbv zeta.
  unfold Identity.applyIPs, bind, Identity.execCatch, Identity.execThrow, gets, when,
    modify, ret.
  rewrite !issue_ok by done.
  repeat case_bool_decide; rewrite ?issue_ok by done; done.
Qed.

Lemma issue_flush name s w :
  reliable fails →
  ipsets w !! name = Some s →
  let w' := (issue (IpsetFlush name) w).2 in
  ipsets w' = <[name := ∅]> (ipsets w) ∧ redis w' = redis w ∧ heap w' = heap w.
Proof.
  intros Hrel Hs. rewrite issue_reliable by done. simpl. by rewrite Hs.
Qed.

Lemma issue_batch adds w :
  reliable fails →
  let w' := (issue (IpsetBatch adds) w).2 in
  ipsets w' = foldl ipsetAdd (ipsets w) adds ∧ redis w' = redis w ∧ heap w' = heap w.
Proof. intros Hrel. by rewrite issue_reliable. Qed.

Lemma issue_smembers key w :
  reliable fails →
  let w' := (issue (Smembers key) w).2 in
  ipsets w' = ipsets w ∧ redis w' = redis w ∧ heap w' = heap w.
Proof. intros Hrel. by rewrite issue_reliable. Qed.

Lemma issue_srem key ms w :
  reliable fails →
  let w' := (issue (Srem key ms) w).2 in
  ipsets w' = ipsets w ∧ heap w' = heap w
  ∧ smembers key w' = smembers key w ∖ list_to_set ms.
Proof.
  intros Hrel. rewrite issue_reliable by done. simpl.
  unfold smembers. simpl. by rewrite lookup_insert_eq.
Qed.

Lemma issue_sadd key ms w :
  reliable fails →
  let w' := (issue (Sadd key ms) w).2 in
  ipsets w' = ipsets w ∧ heap w' = heap w
  ∧ smembers key w' = smembers key w ∪ list_to_set ms.
Proof.
  intros Hrel. rewrite issue_reliable by done. simpl.
  unfold smembers. simpl. by rewrite lookup_insert_eq.
Qed.

Lemma applyIPs_spec ips w s4 s6 :
  reliable fails →
  ipsets w !! set4 = Some s4 →
  ipsets w !! set6 = Some s6 →
  (∀ x, x ∈ smembers registryKey w → stripHostSuffix x = x) →
  let w' := after (applyIPs ips) w in
  _ips w' = Some ips
  ∧ heap w' = heap w
  ∧ converged (arrayAt ips w) w'.
Proof.
  intros Hrel H4 H6 Hnorm w'. subst w'.
  pose proof name4_neq_name6 as Hne.
  unfold after. rewrite applyIPs_reliable by done. cbv zeta.
  destruct (issue_flush set4 s4 w Hrel H4) as (Hi1 & Hr1 & Hh1).
  set (w1 := (issue (IpsetFlush set4) w).2) in *.
  assert (ipsets w1 !! set6 = Some s6) as H6' by (by rewrite Hi1, lookup_insert_ne).
  destruct (issue_flush set6 s6 w1 Hrel H6') as (Hi2 & Hr2 & Hh2).
  set (w2 := (issue (IpsetFlush set6) w1).2) in *.
  assert (arrayAt ips w2 = arrayAt ips w) as Harr
    by (unfold arrayAt; by rewrite Hh2, Hh1).
  rewrite Harr. set (arr := arrayAt ips w) in *.
  destruct (issue_batch (addCmds arr) w2 Hrel) as (Hi3 & Hr3 & Hh3).
  set (w3 := (issue (IpsetBatch (addCmds arr)) w2).2) in *.
  destruct (issue_smembers registryKey w3 Hrel) as (Hi4 & Hr4 & Hh4).
  set (w4 := (issue (Smembers registryKey) w3).2) in *.
  assert (smembers registryKey w4 = smembers registryKey w) as Hcur
    by (unfold smembers; by rewrite Hr4, Hr3, Hr2, Hr1).
  rewrite Hcur. set (cur := smembers registryKey w) in *.
  set (removedIPs := filter (λ ip, ip ∉ arr) (elements cur)).
  set (newIPs := stripHostSuffix <$> filter (λ ip, ip ∉ elements cur) arr).
  set (w5 := if bool_decide (0 < length removedIPs)%nat
             then (issue (Srem registryKey removedIPs) w4).2 else w4).
  assert (ipsets w5 = ipsets w4 ∧ heap w5 = heap w4
          ∧ smembers registryKey w5 = cur ∖ list_to_set removedIPs)
    as (Hi5 & Hh5 & Hs5).
  { unfold w5. case_bool_decide as Hlen.
    - rewrite <- Hcur. by apply issue_srem.
    - rewrite Hcur. destruct removedIPs; [|simpl in Hlen; lia].
      repeat split. set_solver. }
  set (w6 := if bool_decide (0 < length newIPs)%nat
             then (issue (Sadd registryKey newIPs) w5).2 else w5).
  assert (ipsets w6 = ipsets w5 ∧ heap w6 = heap w5
          ∧ smembers registryKey w6
            = (cur ∖ list_to_set removedIPs) ∪ list_to_set newIPs)
    as (Hi6 & Hh6 & Hs6).
  { unfold w6. case_bool_decide as Hlen.
    - rewrite <- Hs5. by apply issue_sadd.
    - rewrite Hs5. destruct newIPs; [|simpl in Hlen; lia].
      repeat split. set_solver. }
  cbn [snd].
  split; [done|]. split; [simpl; by rewrite Hh6, Hh5, Hh4, Hh3, Hh2, Hh1|].
  unfold Identity.converged. cbn [snd].
  assert (smembers registryKey (with_ips (Some ips) w6) = smembers registryKey w6)
    as -> by done.
  assert (ipsets (with_ips (Some ips) w6) = ipsets w3) as ->
    by (simpl; by rewrite Hi6, Hi5, Hi4).
  rewrite Hs6. split; [by apply registry_reconciled|].
  rewrite Hi3.
  destruct (foldl_ipsetAdd_addCmds arr (ipsets w2) ∅ ∅) as [-> ->].
  - rewrite Hi2, lookup_insert_ne by done. rewrite Hi1. apply lookup_insert_eq.
  - rewrite Hi2. apply lookup_insert_eq.
  - split; f_equal; set_solver.
Qed.

Lemma arrayAt_insert l k v h w :
  arrayAt l (with_heap (<[k := v]> h) w)
  = if decide (k = l) then v else arrayAt l (with_heap h w).
Proof.
  unfold arrayAt. simpl. case_decide as Hk.
  - subst. by rewrite lookup_insert_eq.
  - by rewrite lookup_insert_ne.
Qed.

Lemma arrayAt_with_heap l w w' : arrayAt l (with_heap (heap w) w') = arrayAt l w.
Proof. done. Qed.

Lemma ipsUnchanged_None ips w :
  _ips w = None → ipsUnchanged ips w = (Returned false, w).
Proof. intros H. unfold Identity.ipsUnchanged, bind, gets. simpl. by rewrite H. Qed.

(** With a previous list [p], the test sorts the argument array, then the
    previous one, and compares what they then hold. *)
Lemma ipsUnchanged_Some ips p w :
  _ips w = Some p →
  let w0 := with_heap (<[ips := jsSort (arrayAt ips w)]> (heap w)) w in
  let w1 := with_heap (<[p := jsSort (arrayAt p w0)]> (heap w0)) w0 in
  ipsUnchanged ips w = (Returned (bool_decide (arrayAt ips w1 = arrayAt p w1)), w1).
Proof.
  intros H. unfold Identity.ipsUnchanged, bind, gets, sortInPlace, modify. simpl.
  by rewrite H.
Qed.

Lemma ipsUnchanged_frame ips w :
  let w' := (ipsUnchanged ips w).2 in
  ipsets w' = ipsets w ∧ redis w' = redis w ∧ log w' = log w ∧ _ips w' = _ips w
  ∧ (∀ l, arrayAt l w' ≡ₚ arrayAt l w).
Proof.
  destruct (_ips w) as [p|] eqn:Hp.
  - rewrite (ipsUnchanged_Some ips p w Hp). simpl.
    repeat split; try done. intros l.
    rewrite !arrayAt_insert, !arrayAt_with_heap.
    repeat case_decide; subst; rewrite ?jsSort_perm; done.
  - by rewrite (ipsUnchanged_None ips w Hp).
Qed.

Lemma ipsUnchanged_true ips w :
  (ipsUnchanged ips w).1 = Returned true →
  ∃ p, _ips w = Some p
       ∧ arrayAt ips (ipsUnchanged ips w).2 = arrayAt p (ipsUnchanged ips w).2.
Proof.
  destruct (_ips w) as [p|] eqn:Hp.
  - rewrite (ipsUnchanged_Some ips p w Hp). simpl. intros [= Hb].
    exists p. split; [done|]. by apply bool_decide_eq_true_1 in Hb.
  - by rewrite (ipsUnchanged_None ips w Hp).
Qed.

Lemma ipsUnchanged_returns ips w :
  ∃ b, (ipsUnchanged ips w).1 = Returned b.
Proof.
  destruct (_ips w) as [p|] eqn:Hp.
  - rewrite (ipsUnchanged_Some ips p w Hp). by eexists.
  - rewrite (ipsUnchanged_None ips w Hp). by eexists.
Qed.

Lemma ipsUnchanged_sorted ips w :
  is_Some (_ips w) →
  Sorted String.le (arrayAt ips (ipsUnchanged ips w).2).
Proof.
  intros [p Hp]. rewrite (ipsUnchanged_Some ips p w Hp). simpl.
  rewrite !arrayAt_insert, !arrayAt_with_heap.
  repeat case_decide; try done; apply Sorted_merge_sort; apply _.
Qed.

Lemma updateIPs_unfold ips w :
  updateIPs ips w
  = match (ipsUnchanged ips w).1 with
    | Returned true => (Returned tt, (ipsUnchanged ips w).2)
    | Returned false => applyIPs ips (ipsUnchanged ips w).2
    | Thrown => (Thrown, (ipsUnchanged ips w).2)
    end.
Proof.
  unfold Identity.updateIPs, bind. destruct (ipsUnchanged ips w) as [[[]|] w1]; done.
Qed.

Lemma converged_perm l l' w :
  l ≡ₚ l' → converged l w → converged l' w.
Proof.
  intros Hperm (Hr & H4 & H6). unfold Identity.converged.
  rewrite Hr, H4, H6. by rewrite Hperm.
Qed.

Lemma converged_frame l w w' :
  ipsets w' = ipsets w → redis w' = redis w → converged l w → converged l w'.
Proof.
  unfold Identity.converged, smembers. by intros -> ->.
Qed.

(** One call of [updateIPs] from a consistent state: the registry and the
    sets hold the list of the call, and the state is consistent again. *)
Lemma updateIPs_step ips w :
  reliable fails →
  consistent w →
  let w' := after (updateIPs ips) w in
  consistent w'
  ∧ converged (arrayAt ips w) w'
  ∧ (∀ l, arrayAt l w' ≡ₚ arrayAt l w).
Proof.
  intros Hrel ([s4 H4] & [s6 H6] & Hnorm & Hconv) w'. subst w'.
  unfold after. rewrite updateIPs_unfold.
  destruct (ipsUnchanged_frame ips w) as (Hi & Hr & Hl & Hp & Hperm).
  destruct (ipsUnchanged_returns ips w) as [b Hb].
  pose proof (ipsUnchanged_true ips w) as Htrue.
  set (w1 := (ipsUnchanged ips w).2) in *. rewrite Hb. destruct b.
  - destruct (Htrue Hb) as (p & Hprev & Heq). simpl.
    assert (converged (arrayAt p w1) w1) as Hc1.
    { apply (converged_perm (arrayAt p w)); [by rewrite Hperm|].
      apply (converged_frame _ w); [done..|]. by apply Hconv. }
    split; [|split; [|done]].
    + split; [by rewrite Hi; eexists|]. split; [by rewrite Hi; eexists|].
      split; [unfold smembers; by rewrite Hr|].
      intros p' Hp'. rewrite Hp, Hprev in Hp'. by injection Hp' as <-.
    + apply (converged_perm (arrayAt ips w1)); [apply Hperm|]. by rewrite Heq.
  - assert (ipsets w1 !! set4 = Some s4) as H4' by (by rewrite Hi).
    assert (ipsets w1 !! set6 = Some s6) as H6' by (by rewrite Hi).
    assert (∀ x, x ∈ smembers registryKey w1 → stripHostSuffix x = x) as Hnorm'
      by (unfold smembers; by rewrite Hr).
    destruct (applyIPs_spec ips w1 s4 s6 Hrel H4' H6' Hnorm') as (Hips & Hheap & Hc).
    unfold after in Hips, Hheap, Hc.
    set (w2 := (applyIPs ips w1).2) in *.
    assert (∀ l, arrayAt l w2 = arrayAt l w1) as Harr
      by (intros l; unfold arrayAt; by rewrite Hheap).
    split; [|split].
    + destruct Hc as (Hc1 & Hc2 & Hc3).
      split; [by eexists|]. split; [by eexists|]. split.
      * intros x. rewrite Hc1, elem_of_list_to_set, list_elem_of_fmap.
        intros (y & -> & _). apply stripHostSuffix_idem.
      * intros p Hp'. rewrite Hips in Hp'. injection Hp' as <-.
        rewrite Harr. done.
    + apply (converged_perm (arrayAt ips w1)); [apply Hperm|done].
    + intros l. rewrite Harr. apply Hperm.
Qed.

Lemma keepsHeap_bind {A B} (m : Async A) (k : A → Async B) :
  keepsHeap m → (∀ a, keepsHeap (k a)) → keepsHeap (bind m k).
Proof.
  intros Hm Hk w. unfold bind. specialize (Hm w).
  destruct (m w) as [[a|] w1]; simpl in *; [|done]. by rewrite Hk.
Qed.

Lemma keepsHeap_issue c : keepsHeap (execCatch c) ∧ keepsHeap (execThrow c).
Proof. split; intros w; apply issue_frame. Qed.

Lemma keepsHeap_applyIPs ips : keepsHeap (applyIPs ips).
Proof.
  unfold Identity.applyIPs.
  repeat first
    [ progress cbv zeta
    | lazymatch goal with
      | |- keepsHeap (bind _ _) => apply keepsHeap_bind; [idtac|intros ?]
      | |- keepsHeap (Identity.execCatch _ _ _) => apply keepsHeap_issue
      | |- keepsHeap (Identity.execThrow _ _ _) => apply keepsHeap_issue
      | |- keepsHeap (when ?b _) => destruct b; simpl
      | |- keepsHeap (gets _) => by intros ?
      | |- keepsHeap (ret _) => by intros ?
      | |- keepsHeap (modify _) => by intros ?
      end ].
Qed.

Lemma issue_ok_redis c w :
  (∀ n c', redisCommand c' = true → fails n c' = false) →
  redisCommand c = true →
  (issue c w).1 = true.
Proof. intros H Hc. unfold Identity.issue. by rewrite H. Qed.

Lemma applyIPs_sets_ips ips w :
  (∀ n c, redisCommand c = true → fails n c = false) →
  (applyIPs ips w).1 = Returned tt ∧ _ips (after (applyIPs ips) w) = Some ips.
Proof.
  intros Hredis.
  unfold after, Identity.applyIPs, bind, Identity.execCatch, Identity.execThrow, gets,
    when, modify, ret.
  rewrite !issue_ok_redis by done.
  repeat case_bool_decide; rewrite ?issue_ok_redis by done; done.
Qed.

Lemma applyIPs_log ips w :
  ∃ rest, log (after (applyIPs ips) w)
          = log w ++ IpsetFlush set4 :: IpsetFlush set6 :: rest.
Proof.
  unfold after, Identity.applyIPs.
  unfold bind at 1. unfold Identity.execCatch at 1.
  unfold bind at 1. unfold Identity.execCatch at 1.
  set (w2 := (issue (IpsetFlush set6) (issue (IpsetFlush set4) w).2).2).
  assert (log w2 = log w ++ [IpsetFlush set4; IpsetFlush set6]) as Hw2.
  { unfold w2. by rewrite !issue_log, <- app_assoc. }
  match goal with |- context [(?m w2).2] =>
    assert (extendsLog m) as Hext end.
  { extends_log. }
  destruct (Hext w2) as [rest Hrest]. exists rest.
  rewrite Hrest, Hw2, <- app_assoc. done.
Qed.


(** C7, amended. A call of [updateIPs] that does not take the early
    return and whose registry commands succeed ends with the argument
    array as the last applied list, whether or not the flushes and the
    batch of additions failed. *)
Theorem updateIPs_sets_last_applied (ips : loc) (w : World) :
  ¬ takesEarlyReturn ips w →
  (∀ n c, redisCommand c = true → fails n c = false) →
  (updateIPs ips w).1 = Returned tt
  ∧ _ips (after (updateIPs ips) w) = Some ips.
Proof.
  intros Hnot Hredis. unfold after. rewrite updateIPs_unfold.
  destruct (ipsUnchanged_returns ips w) as [[] Hb]; [done|]. rewrite Hb.
  by apply applyIPs_sets_ips.
Qed.

Lemma updateIPs_heap ips w :
  heap (after (updateIPs ips) w) = heap (ipsUnchanged ips w).2.
Proof.
  unfold after. rewrite updateIPs_unfold.
  destruct (ipsUnchanged ips w) as [[[]|] w1]; simpl; [done| |done].
  apply keepsHeap_applyIPs.
Qed.

(** The array object that is already the last applied list always takes
    the early return, whatever it holds by now. *)
Lemma updateIPs_same_array ips w :
  _ips w = Some ips → takesEarlyReturn ips w.
Proof.
  intros Hp. unfold Identity.takesEarlyReturn.
  rewrite (ipsUnchanged_Some ips ips w Hp). simpl.
  by rewrite bool_decide_eq_true_2.
Qed.

(** C10. [updateIPs] keeps the argument array itself: a call that reaches
    its last statement stores the reference it was given and allocates no
    array; when a previous list exists, the argument array is left sorted,
    a reordering of what it held, by the comparison; [getIPs] then returns
    the stored reference and changes nothing, and on an identity without a
    stored list it returns a new, empty array. *)
Theorem updateIPs_keeps_argument_array (ips : loc) (w : World) :
  let w' := after (updateIPs ips) w in
  (¬ takesEarlyReturn ips w →
   (∀ n c, redisCommand c = true → fails n c = false) →
   _ips w' = Some ips ∧ getIPs w' = (Returned ips, w'))
  ∧ heap w' = heap (ipsUnchanged ips w).2
  ∧ (_ips w = None → heap w' = heap w)
  ∧ (is_Some (_ips w) →
     Sorted String.le (arrayAt ips w') ∧ arrayAt ips w' ≡ₚ arrayAt ips w)
  ∧ (_ips w = None →
     ∃ l, (getIPs w).1 = Returned l
          ∧ (l ∉ dom (heap w))
          ∧ arrayAt l (after getIPs w) = []
          ∧ _ips (after getIPs w) = None).
Proof.
  intros w'. subst w'. split; [|split; [|split; [|split]]].
  - intros Hnot Hredis.
    assert (_ips (after (updateIPs ips) w) = Some ips) as Hips.
    { unfold after. rewrite updateIPs_unfold.
      destruct (ipsUnchanged_returns ips w) as [[] Hb]; [done|]. rewrite Hb.
      by apply applyIPs_sets_ips. }
    split; [done|]. unfold getIPs, bind, gets. simpl. by rewrite Hips.
  - apply updateIPs_heap.
  - intros Hnone. by rewrite updateIPs_heap, (ipsUnchanged_None ips w Hnone).
  - intros Hsome.
    assert (∀ l, arrayAt l (after (updateIPs ips) w)
                 = arrayAt l (ipsUnchanged ips w).2) as Harr
      by (intros l; unfold arrayAt; by rewrite updateIPs_heap).
    rewrite Harr. split; [by apply ipsUnchanged_sorted|].
    apply ipsUnchanged_frame.
  - intros Hnone. unfold getIPs, after, bind, gets, modify, ret. simpl.
    rewrite Hnone. simpl. eexists. split; [done|].
    split; [apply is_fresh|]. split; [|done].
    unfold arrayAt. simpl. by rewrite lookup_insert_eq.
Qed.

End IdentityFacts.

(** ** Instances *)

Lemma ensureCreateEnforcementEnv_idempotent_witness :
  let ensure := ensureCreateEnforcementEnv "wg" "/home/pi/.firewalla/config"
                  sampleRouteIpsetName noFailure "peer1" in
  files (after ensure (after ensure sampleWorld)) = files (after ensure sampleWorld).
Proof.
  apply (ensureCreateEnforcementEnv_idempotent "wg" "/home/pi/.firewalla/config"
           sampleRouteIpsetName noFailure "peer1" sampleWorld).
  intros n c. reflexivity.
Defined.

Lemma vpnClient_rule_exclusivity_witness :
  let calls := [mkVpnPolicy (JBool true) (Some "P1"); mkVpnPolicy JNull (Some "P2")] in
  let w := vpnClientCalls "wg" "/home/pi/.firewalla/config" "peer1"
             sampleRouteIpsetName "0xffff" noFailure calls sampleWorld in
  neutralRule4 "wg" "peer1" sampleRouteIpsetName "0xffff" "P2" ∈ rules w
  ∧ neutralRule6 "wg" "peer1" sampleRouteIpsetName "0xffff" "P2" ∈ rules w
  ∧ (vpnRule4 "wg" "peer1" sampleRouteIpsetName "P2" ∉ rules w)
  ∧ (vpnRule6 "wg" "peer1" sampleRouteIpsetName "P2" ∉ rules w).
Proof.
  apply (vpnClient_rule_exclusivity "wg" "/home/pi/.firewalla/config" "peer1"
           sampleRouteIpsetName "0xffff" noFailure
           [mkVpnPolicy (JBool true) (Some "P1")] (mkVpnPolicy JNull (Some "P2"))
           sampleWorld).
  - intros n c. reflexivity.
  - simpl. constructor.
  - repeat constructor.
  - reflexivity.
Defined.

Lemma vpnClient_profile_switch_witness :
  let w := after (vpnClient "wg" "/home/pi/.firewalla/config" "peer1"
                    sampleRouteIpsetName "0xffff" noFailure
                    (mkVpnPolicy (JBool true) (Some "P1"))) sampleWorld in
  let wm := after (removeOldRules "wg" "peer1" sampleRouteIpsetName "0xffff"
                     noFailure "P1") w in
  (vpnRule4 "wg" "peer1" sampleRouteIpsetName "P1" ∈ rules w)
  ∧ (vpnRule4 "wg" "peer1" sampleRouteIpsetName "P1" ∉ rules wm).
Proof.
  split.
  - vm_compute. left.
  - apply (vpnClient_profile_switch "wg" "/home/pi/.firewalla/config" "peer1"
             sampleRouteIpsetName "0xffff" noFailure
             (mkVpnPolicy (JBool true) (Some "P2")) "P1").
    + intros n c. reflexivity.
    + vm_compute. repeat constructor; set_solver.
    + reflexivity.
    + discriminate.
    + discriminate.
Defined.

Lemma sampleWorld_consistent :
  consistent "wg" "peer1" sampleIsValid4 sampleIsValid6 sampleWorld.
Proof.
  split; [by exists ∅|]. split; [by exists ∅|]. split.
  - intros x Hx. unfold smembers in Hx. simpl in Hx.
    rewrite lookup_empty in Hx. simpl in Hx. by apply not_elem_of_empty in Hx.
  - intros p Hp. discriminate.
Defined.


Lemma updateIPs_sets_last_applied_witness :
  _ips (after (updateIPs "wg" "peer1" sampleRouteIpsetName sampleIsValid4
                 sampleIsValid6 noFailure 0%nat) sampleWorld) = Some 0%nat.
Proof.
  apply (updateIPs_sets_last_applied "wg" "peer1" sampleRouteIpsetName noFailure
           sampleIsValid4 sampleIsValid6 0%nat sampleWorld).
  - unfold takesEarlyReturn. vm_compute. discriminate.
  - intros n c _. reflexivity.
Defined.

(** C7, as stated, fails: with the registry unreachable the call is not an
    early return, it rejects at the first registry command, and the last
    applied list is not set. *)
Lemma updateIPs_registry_failure :
  let update := updateIPs "wg" "peer1" sampleRouteIpsetName sampleIsValid4
                  sampleIsValid6 registryDown 0%nat in
  ¬ takesEarlyReturn 0%nat sampleWorld
  ∧ (update sampleWorld).1 = Thrown
  ∧ log (after update sampleWorld)
    = [IpsetFlush "c_wg_peer1_set"; IpsetFlush "c_wg_peer1_set6";
       IpsetBatch [("c_wg_peer1_set", "10.1.1.2/32"); ("c_wg_peer1_set6", "fd00::2/128")];
       Smembers "wg:addresses:peer1"]
  ∧ _ips (after update sampleWorld) = None
  ∧ _ips (after update sampleWorld) ≠ Some 0%nat.
Proof.
  split; [unfold takesEarlyReturn; vm_compute; discriminate|].
  split; [by vm_compute|]. split; [by vm_compute|]. split; [by vm_compute|].
  vm_compute. discriminate.
Qed.

Lemma updateIPs_keeps_argument_array_witness :
  let update := updateIPs "wg" "peer1" sampleRouteIpsetName sampleIsValid4
                  sampleIsValid6 noFailure 0%nat in
  let w' := after update sampleWorld in
  _ips w' = Some 0%nat ∧ getIPs w' = (Returned 0%nat, w').
Proof.
  apply (updateIPs_keeps_argument_array "wg" "peer1" sampleRouteIpsetName noFailure
           sampleIsValid4 sampleIsValid6 0%nat sampleWorld).
  - unfold takesEarlyReturn. vm_compute. discriminate.
  - intros n c _. reflexivity.
Defined.

(** ** The ACL timer *)

Section AclTimerFacts.
Variable stringToNumber : string → option Q.

Local Abbreviation aclTimer := (aclTimer stringToNumber).
Local Abbreviation toNumber := (toNumber stringToNumber).

Lemma Qltb_lt (a b : Q) : Qltb a b = true ↔ (a < b)%Q.
Proof.
  unfold Qltb. rewrite negb_true_iff. split.
  - intros H. apply Qnot_le_lt. intros Hle. apply Qle_bool_iff in Hle. congruence.
  - intros H. destruct (Qle_bool b a) eqn:E; [|done].
    apply Qle_bool_iff in E. by apply Qlt_not_le in H.
Qed.

Lemma elem_of_enqueue (x t : Timer) (l : list Timer) :
  x ∈ enqueue t l ↔ x = t ∨ x ∈ l.
Proof.
  induction l as [|y l IH]; simpl.
  - rewrite list_elem_of_singleton. split; [by left|]. intros [?|?%elem_of_nil]; done.
  - destruct (Qltb (due t) (due y)).
    + by rewrite elem_of_cons.
    + rewrite !elem_of_cons, IH. tauto.
Qed.

Lemma aclTimer_scheduled p w st t :
  p !! "state" = Some st →
  toNumber (default JUndefined (p !! "time")) = Some t →
  (inject_Z (now w) / 1000 < t)%Q →
  aclTimer p w
  = mkTimerWorld (now w)
      (enqueue (mkTimer (nextHandle w)
                  (inject_Z (now w) + (t * 1000 - inject_Z (now w)))%Q st)
               (cleared w))
      (S (nextHandle w)) (Some (nextHandle w)) (policy w) (published w).
Proof.
  intros Hst Ht Hlt. unfold Identity.aclTimer, cleared. rewrite Hst, Ht.
  destruct (_aclTimer w) as [h|]; simpl;
    (rewrite (proj2 (Qltb_lt _ _)) by done); done.
Qed.

Lemma aclTimer_not_scheduled p w :
  p !! "state" = None
  ∨ toNumber (default JUndefined (p !! "time")) = None
  ∨ (∃ t, toNumber (default JUndefined (p !! "time")) = Some t
          ∧ (t <= inject_Z (now w) / 1000)%Q) →
  aclTimer p w
  = mkTimerWorld (now w) (cleared w) (nextHandle w) (_aclTimer w) (policy w)
                 (published w).
Proof.
  intros Hcase. unfold Identity.aclTimer, cleared.
  assert (∀ w1 : TimerWorld,
            now w1 = now w →
            match p !! "state", toNumber (default JUndefined (p !! "time")) with
            | Some st, Some t =>
                if Qltb (inject_Z (now w1) / 1000) t
                then let r := setTimeout st (t * 1000 - inject_Z (now w1))%Q w1 in
                     mkTimerWorld (now r.2) (pending r.2) (nextHandle r.2) (Some r.1)
                                  (policy r.2) (published r.2)
                else w1
            | _, _ => w1
            end = w1) as Hskip.
  { intros w1 Hnow. destruct Hcase as [->|[->|(t & -> & Hle)]]; [done|by case_match|].
    destruct (p !! "state"); [|done]. rewrite Hnow.
    destruct (Qltb (inject_Z (now w) / 1000) t) eqn:E; [|done].
    apply Qltb_lt in E. by apply Qlt_not_le in E. }
  rewrite Hskip by (by destruct (_aclTimer w)).
  destruct w as [n pe nh [h|] po pu]; done.
Qed.

Lemma cleared_handle w h x :
  _aclTimer w = Some h → x ∈ cleared w → handle x ≠ h.
Proof.
  intros Hh. unfold cleared. rewrite Hh. by intros [? _]%list_elem_of_filter.
Qed.

Lemma due_deadline (n : Z) (t : Q) : (inject_Z n + (t * 1000 - inject_Z n) == t * 1000)%Q.
Proof. ring. Qed.

Lemma aclTimer_pending p w x :
  x ∈ pending (aclTimer p w) → x ∈ cleared w ∨ handle x = nextHandle w.
Proof.
  destruct (p !! "state") as [st|] eqn:Hst;
    [|rewrite aclTimer_not_scheduled by (by left); by left].
  destruct (toNumber (default JUndefined (p !! "time"))) as [t|] eqn:Ht;
    [|rewrite aclTimer_not_scheduled by (right; by left); by left].
  destruct (Qltb (inject_Z (now w) / 1000) t) eqn:E.
  - apply Qltb_lt in E. rewrite (aclTimer_scheduled p w st t) by done. simpl.
    rewrite elem_of_enqueue. intros [->|?]; [by right|by left].
  - rewrite aclTimer_not_scheduled; [by left|]. right. right. exists t.
    split; [done|]. apply Qnot_lt_le. intros Hlt. apply Qltb_lt in Hlt. congruence.
Qed.


End AclTimerFacts.



(** ** The docker VPN client *)

Import DockerBaseVPNClient.

Lemma div_pow2_coarser (x y : Z) (h1 h2 : nat) :
  (h1 ≤ h2)%nat →
  x `div` 2 ^ Z.of_nat h1 = y `div` 2 ^ Z.of_nat h1 →
  x `div` 2 ^ Z.of_nat h2 = y `div` 2 ^ Z.of_nat h2.
Proof.
  intros Hle Heq.
  replace (Z.of_nat h2) with (Z.of_nat h1 + Z.of_nat (h2 - h1)) by lia.
  rewrite Z.pow_add_r by lia.
  rewrite <- !Z.div_div by (try apply Z.pow_nonzero; try apply Z.pow_pos_nonneg; lia).
  by rewrite Heq.
Qed.

(** The test [overlaps] decides whether two networks share an address. *)
Lemma overlaps_intersects (c d : Cidr) : overlaps c d = true ↔ intersects c d.
Proof.
  unfold overlaps, intersects, contains. rewrite bool_decide_eq_true. split.
  - intros H. destruct (Nat.le_ge_cases (hostBits c) (hostBits d)) as [Hle|Hle].
    + exists (base c). split; [done|]. by rewrite Nat.max_r in H.
    + exists (base d). split; [|done]. by rewrite Nat.max_l in H.
  - intros (x & Hc & Hd).
    transitivity (x `div` 2 ^ Z.of_nat (hostBits c `max` hostBits d)).
    + symmetry. apply (div_pow2_coarser _ _ (hostBits c)); [lia|done].
    + apply (div_pow2_coarser _ _ (hostBits d)); [lia|done].
Qed.

(** For a local subnet no narrower than a /24, a candidate /24 intersects
    it exactly when the candidate's base address lies in it. *)
Lemma overlaps_base_address (a : Z) (l : Cidr) :
  (plen l ≤ 24)%nat →
  overlaps (mkCidr a 24) l = true ↔ contains l a.
Proof.
  intros Hp. unfold overlaps, contains, hostBits. simpl.
  rewrite bool_decide_eq_true. by rewrite Nat.max_r by lia.
Qed.

Lemma inMySubnets4_false (mySubnets : list Cidr) (a : Z) :
  inMySubnets4 mySubnets a = false →
  ∀ l, l ∈ mySubnets → ¬ intersects (mkCidr a 24) l.
Proof.
  unfold inMySubnets4. intros H l Hl Hi.
  apply overlaps_intersects in Hi.
  assert (existsb (overlaps (mkCidr a 24)) mySubnets = true) as Ht; [|congruence].
  apply existsb_exists. exists l. split; [by apply list_elem_of_In|done].
Qed.

Lemma candidate_aligned (random : nat → Q) (index k : nat) :
  candidate random index k `mod` 256 = 0.
Proof.
  unfold candidate.
  assert (∀ e : Cidr * Z, e ∈ (mkCidr 0 0, 0) :: ipRangeRandomMap →
                          base e.1 `mod` 256 = 0) as Hbase.
  { intros e He. unfold ipRangeRandomMap in He.
    repeat (apply elem_of_cons in He as [->|He]; [done|]). by apply elem_of_nil in He. }
  set (entry := default (mkCidr 0 0, 0) (ipRangeRandomMap !! index)).
  assert (base entry.1 `mod` 256 = 0) as Hb.
  { apply Hbase. unfold entry. destruct (ipRangeRandomMap !! index) eqn:E; simpl.
    - right. by eapply list_elem_of_lookup_2.
    - by left. }
  rewrite Z.add_mod, Hb, Z.mod_mul by lia. done.
Qed.

Lemma generateLoop_S mySubnets random fuel index k :
  generateLoop mySubnets random (S fuel) index k
  = if negb (inMySubnets4 mySubnets (candidate random (index `mod` 3) k))
    then Some (correctForm (candidate random (index `mod` 3) k) +:+ "/24")
    else generateLoop mySubnets random fuel (S (index `mod` 3)) (S k).
Proof. reflexivity. Qed.

Lemma generateLoop_result mySubnets random fuel index k s :
  generateLoop mySubnets random fuel index k = Some s →
  ∃ i j, s = correctForm (candidate random i j) +:+ "/24"
         ∧ inMySubnets4 mySubnets (candidate random i j) = false.
Proof.
  revert index k. induction fuel as [|fuel IH]; intros index k; [done|].
  rewrite generateLoop_S.
  destruct (inMySubnets4 mySubnets (candidate random (index `mod` 3) k)) eqn:E;
    cbn [negb].
  - apply IH.
  - intros [= <-]. by exists (index `mod` 3)%nat, k.
Qed.


(** The allocator returns as soon as a drawn candidate is free: with more
    fuel than the number of that turn, it does return. *)
Lemma generateLoop_returns mySubnets random n fuel index k :
  inMySubnets4 mySubnets (candidate random ((index + n) `mod` 3) (k + n)) = false →
  (n < fuel)%nat →
  is_Some (generateLoop mySubnets random fuel index k).
Proof.
  revert fuel index k. induction n as [|n IH]; intros fuel index k Hfree Hlt.
  - destruct fuel as [|fuel]; [lia|]. rewrite generateLoop_S.
    rewrite !Nat.add_0_r in Hfree. rewrite Hfree. by eexists.
  - destruct fuel as [|fuel]; [lia|]. rewrite generateLoop_S.
    destruct (inMySubnets4 mySubnets (candidate random (index `mod` 3) k));
      cbn [negb]; [|by eexists].
    apply IH; [|lia].
    replace (k + S n)%nat with (S k + n)%nat in Hfree by lia.
    rewrite <- Hfree. f_equal. f_equal.
    replace (index + S n)%nat with (S index + n)%nat by lia.
    rewrite (Nat.Div0.add_mod (S (index `mod` 3))), (Nat.Div0.add_mod (S index)).
    f_equal. f_equal.
    change (S (index `mod` 3)) with (1 + index `mod` 3)%nat.
    change (S index) with (1 + index)%nat.
    by rewrite Nat.Div0.add_mod_idemp_r.
Qed.


Section PollerFacts.
Variable interfaceName : string.
Variable address4 : string → Z.
Variable carrier : nat → option string.
Variable subnetFile : option string.

Local Abbreviation pollLoop := (pollLoop interfaceName address4 carrier subnetFile).
Local Abbreviation linkUpPoller :=
  (linkUpPoller interfaceName address4 carrier subnetFile).
Local Abbreviation remoteIP := (_getRemoteIP address4 subnetFile).

Lemma count_cons f e l :
  count f (e :: l) = ((if f e then 1 else 0) + count f l)%nat.
Proof.
  unfold count. destruct (f e) eqn:E.
  - by rewrite filter_cons_True.
  - rewrite filter_cons_False by congruence. done.
Qed.

Lemma pollLoop_checks remaining t :
  (count isReadCarrier (pollLoop remaining t) ≤ remaining)%nat
  ∧ (count isDelay (pollLoop remaining t) ≤ remaining)%nat
  ∧ (count isAddRoute (pollLoop remaining t) ≤ 1)%nat.
Proof.
  revert t. induction remaining as [|n IH]; intros t; simpl; [by cbv; lia|].
  rewrite !count_cons. simpl. case_bool_decide.
  - destruct remoteIP; cbv; lia.
  - rewrite !count_cons. simpl. destruct (IH (S t)) as (? & ? & ?). lia.
Qed.

Lemma pollLoop_route remaining t e :
  e ∈ pollLoop remaining t ∧ isAddRoute e = true
  ↔ (∃ k, (t ≤ k < t + remaining)%nat ∧ carrier k = Some "1")
    ∧ ∃ ip, remoteIP = Some ip ∧ e = AddRouteToTable ip interfaceName "wan_routable".
Proof.
  revert t. induction remaining as [|n IH]; intros t; simpl.
  - split; [by intros [?%elem_of_nil _]|]. intros [(k & ? & _) _]. lia.
  - rewrite elem_of_cons. case_bool_decide as Hc.
    + split.
      * intros [[->|He] Hr]; [done|]. split; [exists t; split; [lia|done]|].
        destruct remoteIP as [ip|]; [|by apply elem_of_nil in He].
        apply list_elem_of_singleton in He. by exists ip.
      * intros [_ (ip & Hip & ->)]. split; [|done]. right. rewrite Hip.
        by apply list_elem_of_singleton.
    + rewrite elem_of_cons. split.
      * intros [[->|[->|He]] Hr]; [done..|].
        destruct (proj1 (IH (S t)) (conj He Hr)) as [(k & Hk & Hone) Hip].
        split; [|done]. exists k. split; [lia|done].
      * intros [(k & Hk & Hone) Hip].
        assert (k ≠ t) by (intros ->; done).
        destruct (proj2 (IH (S t))) as [He Hr].
        { split; [|done]. exists k. split; [lia|done]. }
        split; [|done]. right. by right.
Qed.

Lemma pollLoop_never_ready remaining t :
  (∀ k, (t ≤ k < t + remaining)%nat → carrier k ≠ Some "1") →
  count isReadCarrier (pollLoop remaining t) = remaining
  ∧ count isDelay (pollLoop remaining t) = remaining
  ∧ count isAddRoute (pollLoop remaining t) = 0%nat.
Proof.
  revert t. induction remaining as [|n IH]; intros t Hnever; simpl; [done|].
  rewrite !count_cons. simpl.
  rewrite bool_decide_eq_false_2 by (apply Hnever; lia).
  rewrite !count_cons. simpl.
  destruct (IH (S t)) as (-> & -> & ->); [|done].
  intros k Hk. apply Hnever. lia.
Qed.

(** C5, amended. The link-up poller reads the carrier file at most 30
    times and sleeps at most 30 times; when readiness never shows it does
    so exactly 30 times, adds no route and ends. A route into
    [wan_routable] is added, once at most, if and only if a carrier of "1"
    was read within the 30 checks and the remote address is resolvable
    from the subnet file; the route is the one to that address through the
    interface of the client. *)
Theorem linkUpPoller_bounded :
  (count isReadCarrier linkUpPoller ≤ 30)%nat
  ∧ (count isDelay linkUpPoller ≤ 30)%nat
  ∧ (count isAddRoute linkUpPoller ≤ 1)%nat
  ∧ ((∀ t, (t < 30)%nat → carrier t ≠ Some "1") →
     count isReadCarrier linkUpPoller = 30%nat
     ∧ count isDelay linkUpPoller = 30%nat
     ∧ count isAddRoute linkUpPoller = 0%nat)
  ∧ (∀ e, e ∈ linkUpPoller ∧ isAddRoute e = true
          ↔ (∃ t, (t < 30)%nat ∧ carrier t = Some "1")
            ∧ ∃ ip, remoteIP = Some ip
                    ∧ e = AddRouteToTable ip interfaceName "wan_routable").
Proof.
  unfold DockerBaseVPNClient.linkUpPoller.
  destruct (pollLoop_checks 30 0) as (Hr & Hd & Ha).
  split; [done|]. split; [done|]. split; [done|]. split.
  - intros Hnever. apply pollLoop_never_ready. intros k Hk. apply Hnever. lia.
  - intros e. rewrite pollLoop_route. split.
    + intros [(k & Hk & Hone) Hip]. split; [|done]. exists k. split; [lia|done].
    + intros [(k & Hk & Hone) Hip]. split; [|done]. exists k. split; [lia|done].
Qed.

End PollerFacts.

(** C5, as stated, fails: the carrier reads "1" at the first check, yet no
    route is added when the subnet file cannot be read. *)
Lemma linkUpPoller_ready_without_route :
  let carrier : nat → option string := λ _, Some "1" in
  (∃ t, (t < 30)%nat ∧ carrier t = Some "1")
  ∧ linkUpPoller "vpn_wg1" sampleAddress4 carrier None = [ReadCarrier 0]
  ∧ ¬ ∃ e, e ∈ linkUpPoller "vpn_wg1" sampleAddress4 carrier None
           ∧ isAddRoute e = true.
Proof.
  split; [exists 0%nat; split; [lia|done]|]. split; [done|].
  intros (e & He & Hr). vm_compute in He.
  apply list_elem_of_singleton in He. by subst e.
Qed.

Lemma linkUpPoller_bounded_witness :
  let carrier : nat → option string :=
    λ t, if decide (t = 2%nat) then Some "1" else Some "0" in
  AddRouteToTable "172.20.0.2" "vpn_wg1" "wan_routable"
    ∈ linkUpPoller "vpn_wg1" sampleAddress4 carrier (Some "172.20.0.0/24").
Proof.
  intros carrier.
  apply (linkUpPoller_bounded "vpn_wg1" sampleAddress4 carrier (Some "172.20.0.0/24")).
  split.
  - exists 2%nat. split; [lia|reflexivity].
  - exists "172.20.0.2". split; reflexivity.
Defined.
